(** * Tab Stash: the deleted-items model (src/model/deleted-items.ts)

    A shallow embedding of the [Model] class that mirrors a persistent
    key-value store of deleted bookmarks and folders into an observable,
    in-memory list, and the properties of its handlers.

    Objects are modelled by reference: the [Deletion] objects live in a heap,
    [state.entries] is an array of references and [_entry_cache] maps a key to
    a reference, so that a mutation through the cache is seen through
    [entries] exactly when both hold the same reference.

    The model runs on a single thread.  What can happen to it is an [Event]:
    a turn of the hydration loop, a notification from the store, a call of
    [add] or [drop], the passing of time.  The store, the [Date] parser, the
    folder-name formatter and the random strings come from outside this file
    and are parameters ([KeyValueStore], [Platform]).  Strings are sequences
    of bytes, compared byte by byte; the keys are ASCII. *)

From Stdlib Require Import ZArith Ascii Lia.
From Stdlib Require String.
From stdpp Require Import gmap strings list fin_maps.

Local Open Scope Z_scope.

(** ** Data model *)

(** [DeletedItem = DeletedBookmark | DeletedFolder]; the two are told apart at
    run time by the presence of the [children] property. *)
#[warnings="-register-all"]
Inductive DeletedItem : Type :=
| DeletedBookmark (title url : string) (favIconUrl : option string)
| DeletedFolder (title : string) (children : list DeletedItem).

(** A JavaScript [Date] holds a time value: milliseconds since the epoch, or
    NaN ("Invalid Date"), which is [None] here. *)
Definition Date : Type := option Z.

(** [SourceValue]: the persisted form of a record. *)
Record SourceValue : Type := mkSourceValue {
  sv_deleted_at : string;
  sv_item : DeletedItem;
}.

(** [Entry<string, SourceValue>] of util/kvs. *)
Record Entry : Type := mkEntry {
  entry_key : string;
  entry_value : SourceValue;
}.

(** [Deletion]: the in-memory form. *)
Record Deletion : Type := mkDeletion {
  key : string;
  deleted_at : Date;
  item : DeletedItem;
}.

(** Errors raised by the store are opaque values that are only passed on. *)
Definition Error : Type := string.

(** The [KeyValueStore] interface as far as the model calls it.  A call may
    fail, and returns the store as it is afterwards.  The notifications a
    store emits are delivered later, through [onSet] and [onDelete]. *)
Class KeyValueStore (S : Type) : Type := {
  kvs_set : list Entry → S → (Error + unit) * S;
  kvs_delete : list string → S → (Error + unit) * S;
}.

(** What the model takes from the platform and from modules that are not part
    of this file: the [Date] parser behind [new Date(string)],
    [friendlyFolderName] of ../stash and [makeRandomString] of ../util/random
    drawing from a source of randomness [R]. *)
Class Platform (R : Type) : Type := {
  newDate : string → Date;
  friendlyFolderName : string → string;
  makeRandomString : nat → R → string * R;
}.

(** A reference to a [Deletion] object: its index in the heap. *)
Abbreviation ref := nat.

(** The observable [state] together with the private [_entry_cache] and the
    heap of [Deletion] objects allocated so far. *)
Record Model : Type := mkModel {
  ready : bool;
  entries : list ref;
  _entry_cache : gmap string ref;
  heap : list Deletion;
}.

(** The state of [new Model(kvs)] when the constructor returns. *)
Definition new_Model : Model :=
  {| ready := false; entries := []; _entry_cache := ∅; heap := [] |}.

(** The [Deletion] a reference points to, and the one cached for a key. *)
Definition deref (m : Model) (c : ref) : option Deletion := heap m !! c.

Definition cached (m : Model) (k : string) : option Deletion :=
  _entry_cache m !! k ≫= deref m.

(** [state.entries] as a reader sees it: the objects, in order. *)
Definition entries_view (m : Model) : list Deletion :=
  omap (deref m) (entries m).

(** The keys occurring in [state.entries]. *)
Definition entries_keys (m : Model) : list string :=
  key <$> entries_view m.

(** The cache points into [entries], to an object filed under its own key;
    every reference in [entries] is allocated and its key is cached. *)
Record consistent (m : Model) : Prop := {
  cache_in_entries : ∀ k c,
    _entry_cache m !! k = Some c →
    c ∈ entries m ∧ ∃ d, heap m !! c = Some d ∧ key d = k;
  entries_allocated : ∀ c,
    c ∈ entries m →
    ∃ d, heap m !! c = Some d ∧ is_Some (_entry_cache m !! key d);
}.

(** ** [Date.prototype.toISOString]

    The calendar functions of ECMAScript (Day, DayFromYear, YearFromTime,
    MonthFromTime, DateFromTime, ...) on a time value in milliseconds, and
    the string [YYYY-MM-DDTHH:mm:ss.sssZ] built from them; years outside
    0000..9999 are written with a sign and six digits. *)
Module ISO.

Definition msPerDay : Z := 86400000.

Definition Day (t : Z) : Z := t / msPerDay.

Definition DaysInYear (y : Z) : Z :=
  if negb (y mod 4 =? 0) then 365
  else if negb (y mod 100 =? 0) then 366
  else if negb (y mod 400 =? 0) then 365
  else 366.

(** The day number of the first day of year [y]. *)
Definition DayFromYear (y : Z) : Z :=
  365 * (y - 1970) + (y - 1969) / 4 - (y - 1901) / 100 + (y - 1601) / 400.

(** The largest year that starts on or before day [d]: a first guess from the
    mean length of a year, which is off by at most one. *)
Definition YearFromDay (d : Z) : Z :=
  let g := 1970 + (400 * d) / 146097 in
  if DayFromYear (g + 1) <=? d then g + 1
  else if DayFromYear g <=? d then g
  else g - 1.

Definition YearFromTime (t : Z) : Z := YearFromDay (Day t).

Definition InLeapYear (t : Z) : Z :=
  if DaysInYear (YearFromTime t) =? 366 then 1 else 0.

Definition DayWithinYear (t : Z) : Z := Day t - DayFromYear (YearFromTime t).

Definition MonthFromTime (t : Z) : Z :=
  let d := DayWithinYear t in
  let leap := InLeapYear t in
  if d <? 31 then 0
  else if d <? 59 + leap then 1
  else if d <? 90 + leap then 2
  else if d <? 120 + leap then 3
  else if d <? 151 + leap then 4
  else if d <? 181 + leap then 5
  else if d <? 212 + leap then 6
  else if d <? 243 + leap then 7
  else if d <? 273 + leap then 8
  else if d <? 304 + leap then 9
  else if d <? 334 + leap then 10
  else 11.

Definition DateFromTime (t : Z) : Z :=
  let d := DayWithinYear t in
  let leap := InLeapYear t in
  match MonthFromTime t with
  | 0 => d + 1
  | 1 => d - 30
  | 2 => d - 58 - leap
  | 3 => d - 89 - leap
  | 4 => d - 119 - leap
  | 5 => d - 150 - leap
  | 6 => d - 180 - leap
  | 7 => d - 211 - leap
  | 8 => d - 242 - leap
  | 9 => d - 272 - leap
  | 10 => d - 303 - leap
  | _ => d - 333 - leap
  end.

Definition HourFromTime (t : Z) : Z := (t / 3600000) mod 24.
Definition MinFromTime (t : Z) : Z := (t / 60000) mod 60.
Definition SecFromTime (t : Z) : Z := (t / 1000) mod 60.
Definition msFromTime (t : Z) : Z := t mod 1000.

(** The character of a decimal digit. *)
Definition digit (n : Z) : ascii := ascii_of_N (48 + Z.to_N n).

(** [n] in [w] decimal digits, with leading zeros. *)
Fixpoint pad (w : nat) (n : Z) : string :=
  match w with
  | O => ""
  | S w' => String (digit (n / 10 ^ Z.of_nat w')) (pad w' (n mod 10 ^ Z.of_nat w'))
  end.

Definition year_string (y : Z) : string :=
  if (0 <=? y) && (y <=? 9999) then pad 4 y
  else if 0 <=? y then "+" +:+ pad 6 y
  else "-" +:+ pad 6 (- y).

Definition toISOString (t : Z) : string :=
  year_string (YearFromTime t) +:+ "-" +:+ pad 2 (MonthFromTime t + 1) +:+ "-"
    +:+ pad 2 (DateFromTime t) +:+ "T" +:+ pad 2 (HourFromTime t) +:+ ":"
    +:+ pad 2 (MinFromTime t) +:+ ":" +:+ pad 2 (SecFromTime t) +:+ "."
    +:+ pad 3 (msFromTime t) +:+ "Z".

(** The time values whose year is written with four digits:
    0000-01-01T00:00:00.000Z up to 9999-12-31T23:59:59.999Z. *)
Definition four_digit_year (t : Z) : Prop :=
  -62167219200000 <= t <= 253402300799999.

End ISO.

(** ** The handlers *)

Section model.

Context {R : Type} `{!Platform R}.

(** [src2state] *)
Definition src2state (e : Entry) : Deletion :=
  {| key := entry_key e;
     deleted_at := newDate (sv_deleted_at (entry_value e));
     item := match sv_item (entry_value e) with
             | DeletedFolder title children =>
                 DeletedFolder (friendlyFolderName title) children
             | DeletedBookmark _ _ _ as i => i
             end |}.

(** The two assignments of the [kvs.onSet] listener to a cached object. *)
Definition overwrite (value : SourceValue) (cached : Deletion) : Deletion :=
  {| key := key cached;
     deleted_at := newDate (sv_deleted_at value);
     item := sv_item value |}.

(** The body of the loop of the [kvs.onSet] listener. *)
Definition onSet_record (m : Model) (r : Entry) : Model :=
  let key := entry_key r in
  let value := entry_value r in
  match _entry_cache m !! key with
  | Some cached =>
      {| ready := ready m;
         entries := entries m;
         _entry_cache := _entry_cache m;
         heap := alter (overwrite value) cached (heap m) |}
  | None =>
      let r := src2state {| entry_key := key; entry_value := value |} in
      let c := length (heap m) in
      {| ready := ready m;
         entries := entries m ++ [c];
         _entry_cache := <[key := c]> (_entry_cache m);
         heap := heap m ++ [r] |}
  end.

(** The [kvs.onSet] listener. *)
Definition onSet (records : list Entry) (m : Model) : Model :=
  foldl onSet_record m records.

(** The filter of the [kvs.onDelete] listener, [! kset.has(key)], on the
    object behind a reference.  A reference in [entries] is always allocated
    (see [entries_allocated]), so the last case is never taken. *)
Definition survives (h : list Deletion) (kset : gset string) (c : ref) : bool :=
  match h !! c with
  | Some d => bool_decide (key d ∉ kset)
  | None => true
  end.

(** The [kvs.onDelete] listener. *)
Definition onDelete (keys : list string) (m : Model) : Model :=
  let cache := foldl (λ c k, delete k c) (_entry_cache m) keys in
  let kset : gset string := list_to_set keys in
  {| ready := ready m;
     entries := filter (λ c, survives (heap m) kset c = true) (entries m);
     _entry_cache := cache;
     heap := heap m |}.

(** One turn of the hydration loop [for await (const record of kvs.list())]. *)
Definition hydrate_record (m : Model) (record : Entry) : Model :=
  let key := entry_key record in
  let entry := src2state record in
  let c := length (heap m) in
  {| ready := ready m;
     entries := entries m ++ [c];
     _entry_cache := <[key := c]> (_entry_cache m);
     heap := heap m ++ [entry] |}.

(** [this.state.ready = true], after the loop. *)
Definition hydrate_done (m : Model) : Model :=
  {| ready := true;
     entries := entries m;
     _entry_cache := _entry_cache m;
     heap := heap m |}.

End model.

(** ** The world the model runs in *)

(** The asynchronous hydration block of the constructor: still iterating,
    finished, or stopped by an error that went to [console.error]. *)
Inductive Task : Type := Running | Completed | Failed.

#[global] Instance Task_eq_dec : EqDecision Task.
Proof. solve_decision. Defined.

(** The model, its hydration task, the store behind [_kvs], the system clock
    read by [new Date()] and the source of randomness. *)
Record World (S R : Type) : Type := mkWorld {
  model : Model;
  hydration : Task;
  kvs : S;
  clock : Z;
  random : R;
}.

Arguments mkWorld {S R} _ _ _ _ _.
Arguments model {S R} _.
Arguments hydration {S R} _.
Arguments kvs {S R} _.
Arguments clock {S R} _.
Arguments random {S R} _.

(** What happens to a world: the listing of the hydration loop yields a
    record, ends or throws; the store notifies of records set or keys
    deleted; the application calls [add] or [drop]; time passes. *)
Inductive Event : Type :=
| ListYield (record : Entry)
| ListDone
| ListThrow (e : Error)
| NotifySet (records : list Entry)
| NotifyDelete (keys : list string)
| CallAdd (item : DeletedItem)
| CallDrop (k : string)
| Tick (ms : Z).





Section world.

Context {S R : Type} `{!KeyValueStore S} `{!Platform R}.

Definition with_model (m : Model) (w : World S R) : World S R :=
  {| model := m; hydration := hydration w; kvs := kvs w;
     clock := clock w; random := random w |}.

(** An asynchronous method: it runs in a world and resolves to a value or
    rejects with an error. *)
Definition Op (A : Type) : Type := World S R → (Error + A) * World S R.

#[export] Instance Op_ret : MRet Op := λ A a w, (inr a, w).

#[export] Instance Op_bind : MBind Op := λ A B f m w,
  match m w with
  | (inl e, w') => (inl e, w')
  | (inr a, w') => f a w'
  end.

(** [new Date()]: the time value of the clock. *)
Definition Date_now : Op Z := λ w, (inr (clock w), w).

(** [makeRandomString(n)] on the world's source of randomness. *)
Definition random_string (n : nat) : Op string := λ w,
  let '(s, g) := makeRandomString n (random w) in
  (inr s, {| model := model w; hydration := hydration w; kvs := kvs w;
             clock := clock w; random := g |}).

(** [await this._kvs.set(records)] and [this._kvs.delete(keys)]. *)
Definition with_kvs (f : S → (Error + unit) * S) : Op unit := λ w,
  let '(r, st) := f (kvs w) in
  (r, {| model := model w; hydration := hydration w; kvs := st;
         clock := clock w; random := random w |}).

(** [Model.add].  The key is made before the call suspends at [await]; the
    notifications the store sends are events of their own ([NotifySet]). *)
Definition add (item : DeletedItem) : Op Entry :=
  now ← Date_now;
  let deleted_at := ISO.toISOString now in
  suffix ← random_string 4;
  let key := deleted_at +:+ "-" +:+ suffix in
  let entry := {| entry_key := key;
                  entry_value := {| sv_deleted_at := deleted_at;
                                    sv_item := item |} |} in
  _ ← with_kvs (kvs_set [entry]);
  mret entry.

(** The key and the record [add] makes in a world, from the clock and the
    next random string. *)
Definition add_key (w : World S R) : string :=
  ISO.toISOString (clock w) +:+ "-" +:+ (makeRandomString 4 (random w)).1.

Definition add_entry (item : DeletedItem) (w : World S R) : Entry :=
  {| entry_key := add_key w;
     entry_value := {| sv_deleted_at := ISO.toISOString (clock w);
                       sv_item := item |} |}.

(** [Model.drop] *)
Definition drop (key : string) : Op unit :=
  with_kvs (kvs_delete [key]).

(** The world just after [new Model(kvs)]: hydration has started. *)
Definition boot (st : S) (t : Z) (g : R) : World S R :=
  {| model := new_Model; hydration := Running; kvs := st;
     clock := t; random := g |}.

(** One event.  The listing belongs to the hydration loop, so it yields, ends
    or throws only while the loop runs; a throw leaves the task failed and
    the model as it is. *)
Definition step (w : World S R) (ev : Event) : option (World S R) :=
  match ev with
  | ListYield record =>
      match hydration w with
      | Running => Some (with_model (hydrate_record (model w) record) w)
      | _ => None
      end
  | ListDone =>
      match hydration w with
      | Running =>
          Some {| model := hydrate_done (model w); hydration := Completed;
                  kvs := kvs w; clock := clock w; random := random w |}
      | _ => None
      end
  | ListThrow _ =>
      match hydration w with
      | Running =>
          Some {| model := model w; hydration := Failed;
                  kvs := kvs w; clock := clock w; random := random w |}
      | _ => None
      end
  | NotifySet records => Some (with_model (onSet records (model w)) w)
  | NotifyDelete keys => Some (with_model (onDelete keys (model w)) w)
  | CallAdd item => Some (snd (add item w))
  | CallDrop k => Some (snd (drop k w))
  | Tick ms =>
      if 0 <=? ms
      then Some {| model := model w; hydration := hydration w; kvs := kvs w;
                   clock := clock w + ms; random := random w |}
      else None
  end.

(** A sequence of events, in order. *)
Fixpoint run (w : World S R) (evs : list Event) : option (World S R) :=
  match evs with
  | [] => Some w
  | ev :: evs' =>
      match step w ev with
      | Some w' => run w' evs'
      | None => None
      end
  end.

(** The worlds a model can be in. *)
Definition reachable (w : World S R) : Prop :=
  ∃ st t g evs, run (boot st t g) evs = Some w.

End world.

(** ** A store and a platform to run the model on

    Instances of the two interfaces, used to evaluate the model on concrete
    inputs. *)

Module Sample.

(** A store held in memory: [set] upserts, [delete] removes, neither fails. *)
#[global] Instance memory_store : KeyValueStore (gmap string SourceValue) := {|
  kvs_set records st :=
    (inr (), foldl (λ st r, <[entry_key r := entry_value r]> st) st records);
  kvs_delete keys st := (inr (), foldl (λ st k, delete k st) st keys);
|}.

(** A store that cannot be reached: every call fails. *)
Inductive Offline : Type := offline.

#[global] Instance offline_store : KeyValueStore Offline := {|
  kvs_set _ st := (inl "store offline", st);
  kvs_delete _ st := (inl "store offline", st);
|}.

Definition digit_value (c : ascii) : option Z :=
  let n := Z.of_N (N_of_ascii c) in
  if (48 <=? n) && (n <=? 57) then Some (n - 48) else None.

Fixpoint number (s : string) (acc : Z) : option Z :=
  match s with
  | "" => Some acc
  | String c s' => d ← digit_value c; number s' (10 * acc + d)
  end.

Definition field (s : string) (i len : nat) : option Z :=
  number (String.substring i len s) 0.

(** The day of the year on which month [m] (from 1) starts. *)
Definition month_start (leap m : Z) : Z :=
  match m with
  | 1 => 0 | 2 => 31 | 3 => 59 + leap | 4 => 90 + leap | 5 => 120 + leap
  | 6 => 151 + leap | 7 => 181 + leap | 8 => 212 + leap | 9 => 243 + leap
  | 10 => 273 + leap | 11 => 304 + leap | _ => 334 + leap
  end.

(** A [Date] parser that reads the 24 characters [toISOString] writes and
    takes everything else for an invalid date. *)
Definition parse (s : string) : Date :=
  if decide (String.length s = 24%nat) then
    y ← field s 0 4; mo ← field s 5 2; d ← field s 8 2;
    h ← field s 11 2; mi ← field s 14 2; sec ← field s 17 2;
    ms ← field s 20 3;
    let leap := if ISO.DaysInYear y =? 366 then 1 else 0 in
    Some ((ISO.DayFromYear y + month_start leap mo + d - 1) * ISO.msPerDay
          + h * 3600000 + mi * 60000 + sec * 1000 + ms)
  else None.

(** A formatter that shows the folders named [saved-...] as [Saved ...]. *)
Definition friendly (name : string) : string :=
  if String.prefix "saved-" name
  then "Saved " +:+ String.substring 6 (String.length name - 6) name
  else name.

(** Random strings read off a tape of characters. *)
Definition from_tape (n : nat) (tape : string) : string * string :=
  (String.substring 0 n tape,
   String.substring n (String.length tape - n) tape).

#[global] Instance platform : Platform string := {|
  newDate := parse;
  friendlyFolderName := friendly;
  makeRandomString := from_tape;
|}.

(** 2020-09-13T12:26:40.000Z *)
Definition noon : Z := 1600000000000.

Definition bookmark : DeletedItem :=
  DeletedBookmark "A" "http://x" None.

Definition folder : DeletedItem :=
  DeletedFolder "saved-2020-09-13T12:26:40.000Z" [bookmark].

Definition record (k : string) (i : DeletedItem) : Entry :=
  {| entry_key := k;
     entry_value := {| sv_deleted_at := "2020-09-13T12:26:40.000Z";
                       sv_item := i |} |}.

(** A world with an empty store, at [noon]. *)
Definition world (tape : string) : World (gmap string SourceValue) string :=
  boot ∅ noon tape.

(** The world after the listing yielded a folder under the key [k], and
    after a notification that a bookmark was then set under [k]. *)
Definition hydrated : World (gmap string SourceValue) string :=
  with_model (hydrate_record new_Model (record "k" folder)) (world "").

Definition updated : World (gmap string SourceValue) string :=
  with_model (onSet [record "k" bookmark] (model hydrated)) hydrated.

(** A session in which a notification overtakes the listing. *)
Definition session : list Event :=
  [NotifySet [record "a" folder]; ListYield (record "a" folder);
   ListYield (record "b" bookmark); NotifyDelete ["b"]; ListDone].


End Sample.

(** * Properties *)

(** ** The calendar and the order of ISO strings *)

Import ISO.

(** Years start in order. *)
Lemma DayFromYear_mono y1 y2 : y1 <= y2 -> DayFromYear y1 <= DayFromYear y2.
Proof. unfold DayFromYear. intros. Z.div_mod_to_equations. lia. Qed.

(** A year starts when the one before is over. *)
Lemma DayFromYear_succ y : DayFromYear (y + 1) = DayFromYear y + DaysInYear y.
Proof.
  unfold DayFromYear, DaysInYear.
  repeat match goal with
         | |- context [Z.eqb ?a ?b] => destruct (Z.eqb_spec a b); simpl
         end;
    Z.div_mod_to_equations; lia.
Qed.

(** [YearFromDay d] is the year day [d] lies in. *)
Lemma YearFromDay_spec d :
  DayFromYear (YearFromDay d) <= d < DayFromYear (YearFromDay d + 1).
Proof.
  unfold YearFromDay.
  set (g := 1970 + 400 * d / 146097).
  assert (DayFromYear (g - 1) <= d < DayFromYear (g + 2)) as Hg.
  { unfold DayFromYear, g. Z.div_mod_to_equations. lia. }
  destruct (Z.leb_spec (DayFromYear (g + 1)) d).
  - replace (g + 1 + 1) with (g + 2) by lia. lia.
  - destruct (Z.leb_spec (DayFromYear g) d).
    + lia.
    + replace (g - 1 + 1) with g by lia. lia.
Qed.

Lemma YearFromDay_mono d1 d2 : d1 <= d2 -> YearFromDay d1 <= YearFromDay d2.
Proof.
  intros Hd.
  destruct (Z.le_gt_cases (YearFromDay d1) (YearFromDay d2)) as [|Hgt]; [done|].
  pose proof (YearFromDay_spec d1). pose proof (YearFromDay_spec d2).
  pose proof (DayFromYear_mono (YearFromDay d2 + 1) (YearFromDay d1)). lia.
Qed.

(** Lexicographic comparison and concatenation. *)
Lemma append_cons c a x : String c a +:+ x = String c (a +:+ x).
Proof. reflexivity. Qed.

Lemma append_nil x : "" +:+ x = x.
Proof. reflexivity. Qed.

Lemma ascii_compare_refl c : Ascii.compare c c = Eq.
Proof. unfold Ascii.compare. apply N.compare_refl. Qed.

Lemma compare_append_same a x y :
  String.compare (a +:+ x) (a +:+ y) = String.compare x y.
Proof.
  induction a as [|c a IH]; [done|].
  rewrite !append_cons. simpl. by rewrite ascii_compare_refl.
Qed.

Lemma compare_append_lt a b x y :
  String.length a = String.length b →
  String.compare a b = Lt →
  String.compare (a +:+ x) (b +:+ y) = Lt.
Proof.
  revert b. induction a as [|c a IH]; intros [|c' b] Hlen Hlt; try done.
  rewrite !append_cons. simpl in *.
  destruct (Ascii.compare c c'); [|done..]. apply IH; [lia|done].
Qed.

Lemma length_append a b :
  String.length (a +:+ b) = (String.length a + String.length b)%nat.
Proof. induction a as [|c a IH]; [done|]. rewrite append_cons. simpl. by rewrite IH. Qed.

(** Digits compare as their values do. *)
Lemma digit_compare a b :
  0 <= a < b -> b < 10 -> Ascii.compare (digit a) (digit b) = Lt.
Proof.
  intros Hab Hb. unfold Ascii.compare, digit.
  rewrite !N_ascii_embedding by lia. apply N.compare_lt_iff. lia.
Qed.

Lemma pad_length w n : String.length (pad w n) = w.
Proof. revert n. induction w as [|w IH]; intros n; simpl; [done|]. by rewrite IH. Qed.

(** Numbers written in the same width compare as strings the way they
    compare as numbers. *)
Lemma pad_lt w n m :
  0 <= n < m -> m < 10 ^ Z.of_nat w ->
  String.compare (pad w n) (pad w m) = Lt.
Proof.
  revert n m. induction w as [|w IH]; intros n m Hnm Hm.
  { simpl in Hm. lia. }
  cbn [pad String.compare].
  set (p := 10 ^ Z.of_nat w) in *.
  assert (0 < p) by (apply Z.pow_pos_nonneg; lia).
  assert (10 ^ Z.of_nat (S w) = 10 * p) as Hp.
  { rewrite Nat2Z.inj_succ, Z.pow_succ_r by lia. done. }
  pose proof (Z.div_mod n p ltac:(lia)). pose proof (Z.div_mod m p ltac:(lia)).
  pose proof (Z.mod_pos_bound n p ltac:(lia)). pose proof (Z.mod_pos_bound m p ltac:(lia)).
  assert (0 <= n / p) by (apply Z.div_pos; lia).
  assert (n / p <= m / p) as Hq by (apply Z.div_le_mono; lia).
  destruct (Z.eq_dec (n / p) (m / p)) as [Heq|Hne].
  - rewrite Heq, ascii_compare_refl. apply IH; [|lia]. rewrite Heq in *. lia.
  - rewrite digit_compare; [done|lia|].
    apply Z.div_lt_upper_bound; lia.
Qed.

(** One field of fixed width followed by the rest of the string. *)
Lemma compare_field w n m x y :
  0 <= n <= m -> m < 10 ^ Z.of_nat w ->
  (n = m -> String.compare x y = Lt) ->
  String.compare (pad w n +:+ x) (pad w m +:+ y) = Lt.
Proof.
  intros Hnm Hm Hrest. destruct (Z.eq_dec n m) as [->|Hne].
  - rewrite compare_append_same. auto.
  - apply compare_append_lt; [by rewrite !pad_length|]. apply pad_lt; lia.
Qed.

(** The ranges of the calendar fields. *)
Lemma DayWithinYear_bound t :
  0 <= DayWithinYear t < 365 + InLeapYear t.
Proof.
  unfold DayWithinYear, InLeapYear, YearFromTime.
  pose proof (YearFromDay_spec (Day t)) as Hs.
  rewrite DayFromYear_succ in Hs.
  assert (DaysInYear (YearFromDay (Day t)) = 365
          \/ DaysInYear (YearFromDay (Day t)) = 366) as [E | E].
  { unfold DaysInYear. repeat case_match; auto. }
  all: rewrite E in *; simpl; lia.
Qed.

Lemma InLeapYear_cases t : InLeapYear t = 0 \/ InLeapYear t = 1.
Proof. unfold InLeapYear. case_match; auto. Qed.

Lemma MonthFromTime_bound t : 0 <= MonthFromTime t <= 11.
Proof. unfold MonthFromTime. repeat case_match; lia. Qed.

Lemma DateFromTime_bound t : 1 <= DateFromTime t <= 31.
Proof.
  pose proof (DayWithinYear_bound t). pose proof (InLeapYear_cases t).
  unfold DateFromTime, MonthFromTime.
  repeat match goal with
         | |- context [Z.ltb ?a ?b] => destruct (Z.ltb_spec a b)
         end; lia.
Qed.

Lemma Day_mono t1 t2 : t1 <= t2 -> Day t1 <= Day t2.
Proof. intros. apply Z.div_le_mono; [done|lia]. Qed.

Lemma YearFromTime_mono t1 t2 : t1 <= t2 -> YearFromTime t1 <= YearFromTime t2.
Proof. intros. by apply YearFromDay_mono, Day_mono. Qed.

(** Within a year, a later day has a later month, or the same month and a
    later date; the same month and date is the same day. *)
Lemma civil_lex t1 t2 :
  Day t1 <= Day t2 -> YearFromTime t1 = YearFromTime t2 ->
  MonthFromTime t1 <= MonthFromTime t2 /\
  (MonthFromTime t1 = MonthFromTime t2 ->
   DateFromTime t1 <= DateFromTime t2 /\
   (DateFromTime t1 = DateFromTime t2 -> Day t1 = Day t2)).
Proof.
  intros Hd Hy.
  pose proof (DayWithinYear_bound t1). pose proof (DayWithinYear_bound t2).
  pose proof (InLeapYear_cases t1).
  assert (InLeapYear t2 = InLeapYear t1) as Hl by (unfold InLeapYear; by rewrite Hy).
  assert (DayWithinYear t1 <= DayWithinYear t2) as Hw
    by (unfold DayWithinYear; rewrite Hy; lia).
  assert (DayWithinYear t1 = DayWithinYear t2 -> Day t1 = Day t2) as Hinj
    by (unfold DayWithinYear; rewrite Hy; lia).
  unfold DateFromTime, MonthFromTime. rewrite Hl in *.
  remember (DayWithinYear t1) as d1 eqn:E1.
  remember (DayWithinYear t2) as d2 eqn:E2.
  remember (InLeapYear t1) as l eqn:El. clear E1 E2 El Hl Hy Hd.
  repeat match goal with
         | |- context [Z.ltb ?a ?b] => destruct (Z.ltb_spec a b)
         end;
    (split; [lia|]); intros; (split; [lia|]); intros; try lia; apply Hinj; lia.
Qed.

(** Within a day, a later time has a later hour, minute, second or
    millisecond, in that order. *)
Lemma time_lex t1 t2 :
  t1 < t2 -> Day t1 = Day t2 ->
  HourFromTime t1 <= HourFromTime t2 /\
  (HourFromTime t1 = HourFromTime t2 ->
   MinFromTime t1 <= MinFromTime t2 /\
   (MinFromTime t1 = MinFromTime t2 ->
    SecFromTime t1 <= SecFromTime t2 /\
    (SecFromTime t1 = SecFromTime t2 -> msFromTime t1 < msFromTime t2))).
Proof.
  unfold Day, msPerDay, HourFromTime, MinFromTime, SecFromTime, msFromTime.
  intros Hlt Hd. Z.div_mod_to_equations. lia.
Qed.

Lemma four_digit_year_YearFromTime t :
  four_digit_year t -> 0 <= YearFromTime t <= 9999.
Proof.
  intros [Hlo Hhi].
  pose proof (YearFromTime_mono _ _ Hlo) as H0.
  pose proof (YearFromTime_mono _ _ Hhi) as H1.
  vm_compute (YearFromTime (-62167219200000)) in H0.
  vm_compute (YearFromTime 253402300799999) in H1. lia.
Qed.

(** With a four-digit year the string has 24 characters. *)
Lemma toISOString_length t :
  four_digit_year t -> String.length (toISOString t) = 24%nat.
Proof.
  intros [H0 H1]%four_digit_year_YearFromTime. unfold toISOString, year_string.
  rewrite (proj2 (Z.leb_le _ _) H0), (proj2 (Z.leb_le _ _) H1). cbn [andb].
  by rewrite !length_append, !pad_length.
Qed.

Lemma hms_bound t :
  0 <= HourFromTime t < 24 /\ 0 <= MinFromTime t < 60 /\
  0 <= SecFromTime t < 60 /\ 0 <= msFromTime t < 1000.
Proof.
  unfold HourFromTime, MinFromTime, SecFromTime, msFromTime.
  Z.div_mod_to_equations. lia.
Qed.

(** With four-digit years, a later time has a lexicographically greater
    string: the ISO string is sortable. *)
Lemma toISOString_lt t1 t2 :
  four_digit_year t1 -> four_digit_year t2 -> t1 < t2 ->
  String.compare (toISOString t1) (toISOString t2) = Lt.
Proof.
  intros [Ha1 Hb1]%four_digit_year_YearFromTime
    [Ha2 Hb2]%four_digit_year_YearFromTime Hlt.
  unfold toISOString, year_string.
  rewrite (proj2 (Z.leb_le _ _) Ha1), (proj2 (Z.leb_le _ _) Hb1),
    (proj2 (Z.leb_le _ _) Ha2), (proj2 (Z.leb_le _ _) Hb2). cbn [andb].
  pose proof (YearFromTime_mono t1 t2 ltac:(lia)) as Hy.
  pose proof (Day_mono t1 t2 ltac:(lia)) as Hd.
  pose proof (MonthFromTime_bound t1). pose proof (MonthFromTime_bound t2).
  pose proof (DateFromTime_bound t1). pose proof (DateFromTime_bound t2).
  pose proof (hms_bound t1) as (?&?&?&?). pose proof (hms_bound t2) as (?&?&?&?).
  apply compare_field; [lia|simpl; lia|]. intros Ey.
  destruct (civil_lex t1 t2 Hd Ey) as [Hm Hm'].
  rewrite (compare_append_same "-").
  apply compare_field; [lia|simpl; lia|]. intros Em.
  destruct (Hm' ltac:(lia)) as [Hdt Hdt'].
  rewrite (compare_append_same "-").
  apply compare_field; [lia|simpl; lia|]. intros Ed.
  destruct (time_lex t1 t2 Hlt (Hdt' Ed)) as [Hh Hh'].
  rewrite (compare_append_same "T").
  apply compare_field; [lia|simpl; lia|]. intros Eh.
  destruct (Hh' Eh) as [Hmi Hmi'].
  rewrite (compare_append_same ":").
  apply compare_field; [lia|simpl; lia|]. intros Emi.
  destruct (Hmi' Emi) as [Hs Hs'].
  rewrite (compare_append_same ":").
  apply compare_field; [lia|simpl; lia|]. intros Es.
  rewrite (compare_append_same ".").
  apply compare_append_lt; [by rewrite !pad_length|].
  apply pad_lt; [|simpl]; lia.
Qed.

(** ** The cache and the entries agree *)

Lemma lookup_foldl_delete (keys : list string) (cache : gmap string ref) k :
  foldl (λ c k, delete k c) cache keys !! k
  = if decide (k ∈ keys) then None else cache !! k.
Proof.
  revert cache. induction keys as [|k' keys IH]; intros cache.
  { rewrite decide_False; [done|]. apply not_elem_of_nil. }
  cbn [foldl]. rewrite IH. destruct (decide (k = k')) as [->|Hne].
  - rewrite lookup_delete_eq, (decide_True (P := k' ∈ k' :: keys)).
    + by case_decide.
    + apply list_elem_of_here.
  - rewrite lookup_delete_ne by done.
    destruct (decide (k ∈ keys)) as [Hin|Hnin].
    + rewrite decide_True; [done|]. by apply list_elem_of_further.
    + rewrite decide_False; [done|]. by intros [?|?]%elem_of_cons.
Qed.

Lemma foldl_delete_absent (keys : list string) (cache : gmap string ref) :
  (∀ k, k ∈ keys → cache !! k = None) →
  foldl (λ c k, delete k c) cache keys = cache.
Proof.
  intros Habs. apply map_eq. intros k. rewrite lookup_foldl_delete.
  case_decide; [by rewrite Habs|done].
Qed.

Lemma Entry_eta (r : Entry) :
  {| entry_key := entry_key r; entry_value := entry_value r |} = r.
Proof. by destruct r. Qed.

Section handlers.

Context {R : Type} `{!Platform R}.

Lemma onSet_record_fresh m r :
  _entry_cache m !! entry_key r = None →
  onSet_record m r = hydrate_record m r.
Proof.
  intros Hnone. unfold onSet_record, hydrate_record.
  by rewrite Hnone, Entry_eta.
Qed.

Lemma onSet_record_cached m r c :
  _entry_cache m !! entry_key r = Some c →
  onSet_record m r
  = {| ready := ready m; entries := entries m;
       _entry_cache := _entry_cache m;
       heap := alter (overwrite (entry_value r)) c (heap m) |}.
Proof. intros Hc. unfold onSet_record. by rewrite Hc. Qed.

Lemma consistent_new : consistent new_Model.
Proof.
  split; simpl.
  - intros k c Hc. by rewrite lookup_empty in Hc.
  - intros c Hc. by apply elem_of_nil in Hc.
Qed.

Lemma consistent_hydrate_record m r :
  consistent m → consistent (hydrate_record m r).
Proof.
  intros [Hce Hec]. split; simpl.
  - intros k c. rewrite lookup_insert. case_decide as Hk.
    + intros [= <-]. split; [apply elem_of_app; right; apply list_elem_of_here|].
      exists (src2state r). by rewrite list_lookup_middle.
    + intros Hc. destruct (Hce k c Hc) as [Hin (d & Hd & Hkd)].
      split; [apply elem_of_app; by left|]. exists d. split; [|done].
      by apply lookup_app_l_Some.
  - intros c [Hin | ->%list_elem_of_singleton]%elem_of_app.
    + destruct (Hec c Hin) as (d & Hd & Hsome). exists d. split.
      * by apply lookup_app_l_Some.
      * rewrite lookup_insert. by case_decide.
    + exists (src2state r). split; [by rewrite list_lookup_middle|].
      simpl. by rewrite lookup_insert_eq.
Qed.

Lemma consistent_onSet_record m r :
  consistent m → consistent (onSet_record m r).
Proof.
  intros Hm. destruct (_entry_cache m !! entry_key r) as [c|] eqn:Hc.
  - rewrite (onSet_record_cached _ _ _ Hc). destruct Hm as [Hce Hec].
    split; simpl.
    + intros k c' Hc'. destruct (Hce k c' Hc') as [Hin (d & Hd & Hkd)].
      split; [done|]. destruct (decide (c = c')) as [->|Hne].
      * exists (overwrite (entry_value r) d).
        by rewrite list_lookup_alter_eq, Hd.
      * exists d. by rewrite list_lookup_alter_ne.
    + intros c' Hin. destruct (Hec c' Hin) as (d & Hd & Hsome).
      destruct (decide (c = c')) as [->|Hne].
      * exists (overwrite (entry_value r) d).
        by rewrite list_lookup_alter_eq, Hd.
      * exists d. by rewrite list_lookup_alter_ne.
  - rewrite (onSet_record_fresh _ _ Hc). by apply consistent_hydrate_record.
Qed.

Lemma consistent_onSet records m :
  consistent m → consistent (onSet records m).
Proof.
  unfold onSet. revert m. induction records as [|r records IH]; intros m Hm.
  - done.
  - simpl. by apply IH, consistent_onSet_record.
Qed.

Lemma survives_true h (kset : gset string) c d :
  h !! c = Some d → survives h kset c = true ↔ key d ∉ kset.
Proof. intros Hd. unfold survives. rewrite Hd. apply bool_decide_eq_true. Qed.

Lemma consistent_onDelete keys m :
  consistent m → consistent (onDelete keys m).
Proof.
  intros [Hce Hec]. split; simpl.
  - intros k c. rewrite lookup_foldl_delete. case_decide as Hk; [done|].
    intros Hc. destruct (Hce k c Hc) as [Hin (d & Hd & Hkd)].
    split; [|eauto]. apply list_elem_of_filter. split; [|done].
    apply (survives_true _ _ _ _ Hd). rewrite Hkd.
    by rewrite elem_of_list_to_set.
  - intros c [Hs Hin]%list_elem_of_filter.
    destruct (Hec c Hin) as (d & Hd & Hsome). exists d. split; [done|].
    apply (survives_true _ _ _ _ Hd) in Hs.
    rewrite elem_of_list_to_set in Hs.
    rewrite lookup_foldl_delete. by case_decide.
Qed.

Lemma consistent_hydrate_done m :
  consistent m → consistent (hydrate_done m).
Proof. intros [Hce Hec]. by split. Qed.

End handlers.

(** ** The write API and the runs of a world *)

Section system.

Context {S R : Type} `{!KeyValueStore S} `{!Platform R}.

Implicit Types (w : World S R) (ev : Event) (evs : list Event).

(** [add] resolves to the record it made when the store's [set] succeeds and
    rejects with the store's error otherwise; all it changes is the store and
    the source of randomness. *)
Lemma add_unfold item w :
  add item w
  = (match (kvs_set [add_entry item w] (kvs w)).1 with
     | inl e => inl e
     | inr _ => inr (add_entry item w)
     end,
     {| model := model w; hydration := hydration w;
        kvs := (kvs_set [add_entry item w] (kvs w)).2;
        clock := clock w;
        random := (makeRandomString 4 (random w)).2 |}).
Proof.
  unfold add, add_entry, add_key, mbind, Op_bind, mret, Op_ret, Date_now,
    random_string, with_kvs. simpl.
  destruct (makeRandomString 4 (random w)) as [suffix g]. simpl.
  destruct (kvs_set _ (kvs w)) as [[e|[]] st]; reflexivity.
Qed.

Lemma drop_unfold k w :
  drop k w
  = ((kvs_delete [k] (kvs w)).1,
     {| model := model w; hydration := hydration w;
        kvs := (kvs_delete [k] (kvs w)).2;
        clock := clock w; random := random w |}).
Proof. unfold drop, with_kvs. by destruct (kvs_delete [k] (kvs w)). Qed.

Lemma run_snoc w evs ev :
  run w (evs ++ [ev]) = run w evs ≫= λ w', step w' ev.
Proof.
  revert w. induction evs as [|ev' evs IH]; intros w; simpl.
  - by destruct (step w ev).
  - destruct (step w ev'); [apply IH|done].
Qed.

(** What a step does to the model and to the hydration task. *)
Lemma step_inv w ev w' :
  step w ev = Some w' →
  match ev with
  | ListYield r =>
      hydration w = Running ∧ hydration w' = Running ∧
      model w' = hydrate_record (model w) r
  | ListDone =>
      hydration w = Running ∧ hydration w' = Completed ∧
      model w' = hydrate_done (model w)
  | ListThrow _ =>
      hydration w = Running ∧ hydration w' = Failed ∧ model w' = model w
  | NotifySet records =>
      hydration w' = hydration w ∧ model w' = onSet records (model w)
  | NotifyDelete keys =>
      hydration w' = hydration w ∧ model w' = onDelete keys (model w)
  | CallAdd _ | CallDrop _ | Tick _ =>
      hydration w' = hydration w ∧ model w' = model w
  end.
Proof.
  destruct ev; simpl; try (destruct (hydration w) eqn:Hh; [|done..]);
    try (intros [= <-]; by rewrite ?add_unfold, ?drop_unfold).
  case_match; [|done]. by intros [= <-].
Qed.


Lemma step_consistent w ev w' :
  step w ev = Some w' → consistent (model w) → consistent (model w').
Proof.
  intros Hstep%step_inv Hm.
  destruct ev; destruct_and!;
    repeat match goal with H : model w' = _ |- _ => rewrite H end;
    auto using consistent_hydrate_record, consistent_hydrate_done,
      consistent_onSet, consistent_onDelete.
Qed.

Lemma run_consistent w evs w' :
  run w evs = Some w' → consistent (model w) → consistent (model w').
Proof.
  revert w. induction evs as [|ev evs IH]; intros w; simpl.
  - by intros [= <-].
  - destruct (step w ev) as [w1|] eqn:Hstep; [|done].
    intros Hrun Hm. eapply IH; [done|]. by eapply step_consistent.
Qed.

Lemma reachable_consistent w : reachable w → consistent (model w).
Proof.
  intros (st & t & g & evs & Hrun).
  eapply run_consistent; [done|]. apply consistent_new.
Qed.

End system.

(** ** What the handlers do to the entries *)

Section entries.

Context {S R : Type} `{!KeyValueStore S} `{!Platform R}.

Implicit Types (w : World S R) (m : Model) (r : Entry).

(** Allocation does not disturb the objects already in the heap. *)
Lemma omap_lookup_app (h h' : list Deletion) (l : list ref) :
  (∀ c, c ∈ l → is_Some (h !! c)) →
  omap (λ c, (h ++ h') !! c) l = omap (λ c, h !! c) l.
Proof.
  induction l as [|c l IH]; intros Hl; [done|].
  destruct (Hl c) as [d Hd]; [apply list_elem_of_here|].
  assert (omap (λ c, (h ++ h') !! c) l = omap (λ c, h !! c) l) as IH'.
  { apply IH. intros c' Hc'. apply Hl. by apply list_elem_of_further. }
  simpl. rewrite (lookup_app_l_Some _ _ _ _ Hd), Hd. f_equal. exact IH'.
Qed.

Lemma entries_view_hydrate_record m r :
  consistent m →
  entries_view (hydrate_record m r) = entries_view m ++ [src2state r].
Proof.
  intros [_ Hec]. unfold entries_view, deref. simpl.
  rewrite omap_app. simpl. rewrite list_lookup_middle by done. f_equal.
  apply omap_lookup_app. intros c Hc.
  destruct (Hec c Hc) as (d & Hd & _). by exists d.
Qed.

Lemma cached_hydrate_record m r :
  cached (hydrate_record m r) (entry_key r) = Some (src2state r).
Proof.
  unfold cached, deref. simpl. rewrite lookup_insert_eq. simpl.
  by rewrite list_lookup_middle.
Qed.

Lemma onSet_singleton m r : onSet [r] m = onSet_record m r.
Proof. done. Qed.

(** C4: a record derived into a [Deletion], by the hydration loop or by a
    "set" notification for a key that is not cached, keeps its key, has its
    timestamp parsed, and has its item unchanged, except that the title of a
    folder is replaced by its friendly form; the children of the folder are
    the stored ones, with their stored titles.  The [Deletion] is appended to
    the entries and cached under its key. *)
Theorem src2state_formats_top_level_title w r :
  reachable w →
  let d := src2state r in
  key d = entry_key r ∧
  deleted_at d = newDate (sv_deleted_at (entry_value r)) ∧
  (∀ title children,
     sv_item (entry_value r) = DeletedFolder title children →
     item d = DeletedFolder (friendlyFolderName title) children) ∧
  (∀ title url icon,
     sv_item (entry_value r) = DeletedBookmark title url icon →
     item d = DeletedBookmark title url icon) ∧
  (∀ w', step w (ListYield r) = Some w' →
     entries_view (model w') = entries_view (model w) ++ [d] ∧
     cached (model w') (entry_key r) = Some d) ∧
  (∀ w', _entry_cache (model w) !! entry_key r = None →
     step w (NotifySet [r]) = Some w' →
     entries_view (model w') = entries_view (model w) ++ [d] ∧
     cached (model w') (entry_key r) = Some d).
Proof.
  intros Hw%reachable_consistent d. subst d.
  split_and!; try done.
  - intros title children Hi. unfold src2state. simpl. by rewrite Hi.
  - intros title url icon Hi. unfold src2state. simpl. by rewrite Hi.
  - intros w' (_ & _ & ->)%step_inv.
    by rewrite entries_view_hydrate_record, cached_hydrate_record.
  - intros w' Hnone [_ ->]%step_inv.
    rewrite onSet_singleton, (onSet_record_fresh _ _ Hnone).
    by rewrite entries_view_hydrate_record, cached_hydrate_record.
Qed.

(** C1: applied to the new model, a "set" notification for a folder files a
    [Deletion] with the friendly title; the same notification applied again
    finds the key cached and stores the item as persisted, with the raw
    title.  The timestamp and the children are the same in both. *)
Theorem onSet_twice_stores_raw_title (k stamp title : string)
    (children : list DeletedItem) :
  let r := {| entry_key := k;
              entry_value := {| sv_deleted_at := stamp;
                                sv_item := DeletedFolder title children |} |} in
  cached (onSet [r] new_Model) k
  = Some {| key := k; deleted_at := newDate stamp;
            item := DeletedFolder (friendlyFolderName title) children |} ∧
  cached (onSet [r] (onSet [r] new_Model)) k
  = Some {| key := k; deleted_at := newDate stamp;
            item := DeletedFolder title children |}.
Proof.
  intros r. rewrite !onSet_singleton.
  assert (onSet_record new_Model r = hydrate_record new_Model r) as ->.
  { apply onSet_record_fresh. apply lookup_empty. }
  split; [apply (cached_hydrate_record new_Model r)|].
  assert (_entry_cache (hydrate_record new_Model r) !! entry_key r = Some 0%nat)
    as Hc by apply lookup_insert_eq.
  rewrite (onSet_record_cached _ _ _ Hc).
  unfold cached, deref. simpl. by rewrite lookup_insert_eq.
Qed.

(** C8: a "set" notification for a cached key assigns [deleted_at] and [item]
    of the cached object, which is an element of the entries; the key of the
    object, the references in the entries and in the cache, the other objects
    and the ready flag stay as they are. *)
Theorem onSet_cached_frame w r c w' :
  reachable w →
  _entry_cache (model w) !! entry_key r = Some c →
  step w (NotifySet [r]) = Some w' →
  ∃ d, heap (model w) !! c = Some d ∧
       key d = entry_key r ∧
       c ∈ entries (model w) ∧
       heap (model w') !! c
       = Some {| key := key d;
                 deleted_at := newDate (sv_deleted_at (entry_value r));
                 item := sv_item (entry_value r) |} ∧
       (∀ c', c' ≠ c → heap (model w') !! c' = heap (model w) !! c') ∧
       length (heap (model w')) = length (heap (model w)) ∧
       entries (model w') = entries (model w) ∧
       _entry_cache (model w') = _entry_cache (model w) ∧
       ready (model w') = ready (model w).
Proof.
  intros [Hce _]%reachable_consistent Hc [_ ->]%step_inv.
  destruct (Hce _ _ Hc) as [Hin (d & Hd & Hk)].
  rewrite onSet_singleton, (onSet_record_cached _ _ _ Hc). simpl.
  exists d. split_and!; try done.
  - by rewrite list_lookup_alter_eq, Hd.
  - intros c' Hne. by apply list_lookup_alter_ne.
  - apply length_alter.
Qed.

(** C9: a "delete" notification whose keys are neither cached nor the key of
    an element of the entries changes nothing. *)
Theorem onDelete_absent_noop m (keys : list string) :
  Forall (λ k, _entry_cache m !! k = None ∧ k ∉ entries_keys m) keys →
  onDelete keys m = m.
Proof.
  rewrite Forall_forall. intros Habs.
  assert (filter (λ c, survives (heap m) (list_to_set keys) c = true) (entries m)
          = entries m) as Hentries.
  { assert (∀ c, c ∈ entries m →
              survives (heap m) (list_to_set keys) c = true) as Hall.
    { intros c Hc. unfold survives. destruct (heap m !! c) as [d|] eqn:Hd; [|done].
      apply bool_decide_eq_true. rewrite elem_of_list_to_set. intros Hk.
      apply (proj2 (Habs _ Hk)). unfold entries_keys, entries_view.
      apply list_elem_of_fmap. exists d. split; [done|].
      apply list_elem_of_omap. by exists c. }
    induction (entries m) as [|c l IH]; [done|].
    rewrite filter_cons_True by (apply Hall, list_elem_of_here).
    f_equal. apply IH. intros c' Hc'. by apply Hall, list_elem_of_further. }
  unfold onDelete. rewrite Hentries, foldl_delete_absent.
  - by destruct m.
  - intros k Hk. apply (Habs _ Hk).
Qed.

(** C10: after a "delete" notification the entries are the elements whose
    key is not in the batch, in the order they were in, and every object is
    as it was. *)
Theorem onDelete_survivors m (keys : list string) :
  heap (onDelete keys m) = heap m ∧
  entries (onDelete keys m) `sublist_of` entries m ∧
  entries_view (onDelete keys m)
  = filter (λ d, key d ∉ keys) (entries_view m) ∧
  entries_view (onDelete keys m) `sublist_of` entries_view m.
Proof.
  assert (entries_view (onDelete keys m)
          = filter (λ d, key d ∉ keys) (entries_view m)) as Hview.
  { unfold entries_view, deref, onDelete. simpl.
    induction (entries m) as [|c l IH]; [done|].
    rewrite filter_cons. destruct (heap m !! c) as [d|] eqn:Hd.
    - case_decide as Hs;
        rewrite (survives_true _ _ _ _ Hd), elem_of_list_to_set in Hs;
        simpl; rewrite Hd.
      + rewrite filter_cons_True by done. f_equal. apply IH.
      + rewrite filter_cons_False by done. apply IH.
    - rewrite decide_True by (unfold survives; by rewrite Hd).
      simpl. rewrite Hd. apply IH. }
  split_and!.
  - done.
  - apply sublist_filter.
  - exact Hview.
  - rewrite Hview. apply sublist_filter.
Qed.

End entries.

(** ** Reachable worlds *)

Section reachable.

Context {S R : Type} `{!KeyValueStore S} `{!Platform R}.

Implicit Types (w : World S R) (m : Model) (r : Entry) (evs : list Event).

Lemma consistent_keys m :
  consistent m →
  list_to_set (entries_keys m) =@{gset string} dom (_entry_cache m).
Proof.
  intros [Hce Hec]. apply set_eq. intros k.
  rewrite elem_of_list_to_set, elem_of_dom.
  unfold entries_keys, entries_view. rewrite list_elem_of_fmap. split.
  - intros (d & -> & (c & Hc & Hd)%list_elem_of_omap).
    destruct (Hec c Hc) as (d' & Hd' & Hsome).
    unfold deref in Hd. by simplify_eq.
  - intros [c Hc]. destruct (Hce k c Hc) as [Hin (d & Hd & Hk)].
    exists d. split; [done|]. apply list_elem_of_omap. by exists c.
Qed.

(** C3: in every world reached from the new model by hydration steps, "set"
    and "delete" notifications, calls of the API and the passing of time, in
    any order, the keys of the entries are the keys of the cache. *)
Theorem entries_keys_eq_cache_keys w :
  reachable w →
  list_to_set (entries_keys (model w))
  =@{gset string} dom (_entry_cache (model w)).
Proof. intros Hw. by apply consistent_keys, reachable_consistent. Qed.

(** C2: when a "set" notification for a record comes first and the listing
    yields the same record afterwards, hydration ends with two entries under
    the one key; the cache refers to the second. *)
Theorem hydrate_after_notify_duplicates st t g r :
  ∃ w, run (boot st t g) [NotifySet [r]; ListYield r; ListDone] = Some w ∧
       ready (model w) = true ∧
       entries (model w) = [0; 1]%nat ∧
       entries_view (model w) = [src2state r; src2state r] ∧
       entries_keys (model w) = [entry_key r; entry_key r] ∧
       _entry_cache (model w) !! entry_key r = Some 1%nat.
Proof.
  exists {| model := hydrate_done (hydrate_record (onSet [r] new_Model) r);
            hydration := Completed; kvs := st; clock := t; random := g |}.
  split; [reflexivity|].
  rewrite onSet_singleton, (onSet_record_fresh new_Model r) by apply lookup_empty.
  split_and!; try done. simpl. apply lookup_insert_eq.
Qed.

(** In the other order the notification finds the key cached and no entry is
    added. *)
Lemma notify_after_hydrate_updates st t g r :
  ∃ w, run (boot st t g) [ListYield r; NotifySet [r]; ListDone] = Some w ∧
       ready (model w) = true ∧
       entries (model w) = [0%nat] ∧
       entries_keys (model w) = [entry_key r].
Proof.
  exists {| model := hydrate_done (onSet [r] (hydrate_record new_Model r));
            hydration := Completed; kvs := st; clock := t; random := g |}.
  split; [reflexivity|].
  assert (_entry_cache (hydrate_record new_Model r) !! entry_key r = Some 0%nat)
    as Hc by apply lookup_insert_eq.
  by rewrite onSet_singleton, (onSet_record_cached _ _ _ Hc).
Qed.





(** C5: [add] and [drop] return a world with the model they were called in:
    the ready flag, the entries, the cache and every object are as before,
    whether the store succeeds or fails.  [add] resolves to the record it
    made or rejects with the error of the store's [set]; [drop] ends as the
    store's [delete] does. *)
Theorem add_drop_leave_model (item : DeletedItem) (k : string) w :
  model (add item w).2 = model w ∧
  hydration (add item w).2 = hydration w ∧
  (add item w).1
  = match (kvs_set [add_entry item w] (kvs w)).1 with
    | inl e => inl e
    | inr _ => inr (add_entry item w)
    end ∧
  model (drop k w).2 = model w ∧
  hydration (drop k w).2 = hydration w ∧
  (drop k w).1 = (kvs_delete [k] (kvs w)).1.
Proof. by rewrite add_unfold, drop_unfold. Qed.

(** Two keys made at the same clock reading compare as their suffixes do. *)
Lemma add_key_same_clock w1 w2 :
  clock w1 = clock w2 →
  String.compare (add_key w1) (add_key w2)
  = String.compare (makeRandomString 4 (random w1)).1
                   (makeRandomString 4 (random w2)).1.
Proof.
  intros Ht. unfold add_key. rewrite Ht.
  by rewrite compare_append_same, (compare_append_same "-").
Qed.

(** X19: of two [add] calls, the later at a clock reading that is
    not earlier, both readings within the years 0000 to 9999: when the clock
    reads a later millisecond at the later call, the later key is
    lexicographically greater, whatever the random suffixes are; when it
    reads the same millisecond, the keys compare as the suffixes do.  Each key
    is the ISO string of the clock reading, 24 characters long, a hyphen and
    the string [makeRandomString(4)] returned, that is 29 characters when
    this string has four; each record carries the item [add] was called with
    and the same ISO string as [deleted_at]. *)
Theorem add_keys_ordered_by_clock w1 w2 item1 item2 r1 r2 w1' w2' :
  four_digit_year (clock w1) → four_digit_year (clock w2) →
  clock w1 <= clock w2 →
  add item1 w1 = (inr r1, w1') →
  add item2 w2 = (inr r2, w2') →
  let suffix1 := (makeRandomString 4 (random w1)).1 in
  let suffix2 := (makeRandomString 4 (random w2)).1 in
  (clock w1 < clock w2 →
   String.compare (entry_key r1) (entry_key r2) = Lt) ∧
  (clock w1 = clock w2 →
   String.compare (entry_key r1) (entry_key r2)
   = String.compare suffix1 suffix2) ∧
  entry_key r1 = toISOString (clock w1) +:+ "-" +:+ suffix1 ∧
  entry_key r2 = toISOString (clock w2) +:+ "-" +:+ suffix2 ∧
  String.length (toISOString (clock w1)) = 24%nat ∧
  String.length (toISOString (clock w2)) = 24%nat ∧
  (String.length suffix1 = 4%nat → String.length (entry_key r1) = 29%nat) ∧
  (String.length suffix2 = 4%nat → String.length (entry_key r2) = 29%nat) ∧
  entry_value r1 = {| sv_deleted_at := toISOString (clock w1);
                      sv_item := item1 |} ∧
  entry_value r2 = {| sv_deleted_at := toISOString (clock w2);
                      sv_item := item2 |}.
Proof.
  intros Hy1 Hy2 Hle Hadd1 Hadd2 suffix1 suffix2.
  rewrite add_unfold in Hadd1, Hadd2.
  assert (r1 = add_entry item1 w1) as -> by (repeat case_match; by simplify_eq).
  assert (r2 = add_entry item2 w2) as -> by (repeat case_match; by simplify_eq).
  assert (∀ w, four_digit_year (clock w) →
               String.length (makeRandomString 4 (random w)).1 = 4%nat →
               String.length (add_key w) = 29%nat) as Hlen.
  { intros w Hy Hs. unfold add_key.
    by rewrite !length_append, toISOString_length, Hs. }
  split_and!; try done; try by apply toISOString_length.
  - intros Hlt. simpl. unfold add_key. apply compare_append_lt.
    + by rewrite !toISOString_length.
    + by apply toISOString_lt.
  - apply add_key_same_clock.
  - by apply Hlen.
  - by apply Hlen.
Qed.

End reachable.

(** ** The model at work *)

Example toISOString_epoch : toISOString 0 = "1970-01-01T00:00:00.000Z".
Proof. reflexivity. Qed.

Example toISOString_noon :
  toISOString Sample.noon = "2020-09-13T12:26:40.000Z".
Proof. reflexivity. Qed.

Example toISOString_leap_day :
  toISOString 1709251199999 = "2024-02-29T23:59:59.999Z".
Proof. reflexivity. Qed.

Example toISOString_last_four_digit_year :
  toISOString 253402300799999 = "9999-12-31T23:59:59.999Z"
  ∧ toISOString 253402300800000 = "+010000-01-01T00:00:00.000Z".
Proof. split; reflexivity. Qed.

Example toISOString_first_four_digit_year :
  toISOString (-62167219200000) = "0000-01-01T00:00:00.000Z"
  ∧ toISOString (-62167219200001) = "-000001-12-31T23:59:59.999Z".
Proof. split; reflexivity. Qed.

(** Past the year 9999 the strings no longer sort as the times do. *)
Example toISOString_order_breaks_at_year_10000 :
  String.compare (toISOString 253402300799999) (toISOString 253402300800000)
  = Gt.
Proof. reflexivity. Qed.

Example parse_toISOString :
  Sample.parse (toISOString Sample.noon) = Some Sample.noon.
Proof. reflexivity. Qed.

(** The title of a folder after one "set" notification and after two. *)
Example onSet_twice_sample :
  item <$> cached (onSet [Sample.record "k" Sample.folder] new_Model) "k"
  = Some (DeletedFolder "Saved 2020-09-13T12:26:40.000Z" [Sample.bookmark])
  ∧ item <$> cached (onSet [Sample.record "k" Sample.folder;
                            Sample.record "k" Sample.folder] new_Model) "k"
    = Some (DeletedFolder "saved-2020-09-13T12:26:40.000Z" [Sample.bookmark]).
Proof. split; vm_compute; reflexivity. Qed.

(** [add] is called while the model hydrates: the store notifies of the new
    record, then the listing reaches it.  The store has one record and the
    entries have two. *)
Example add_during_hydration_sample :
  let e := add_entry Sample.folder (Sample.world "zzzz") in
  ∃ w, run (Sample.world "zzzz")
         [CallAdd Sample.folder; NotifySet [e]; ListYield e; ListDone]
       = Some w ∧
       ready (model w) = true ∧
       size (kvs w) = 1%nat ∧
       entries_keys (model w)
       = ["2020-09-13T12:26:40.000Z-zzzz"; "2020-09-13T12:26:40.000Z-zzzz"].
Proof. eexists. split; [reflexivity|]. by vm_compute. Qed.

(** [add] and [drop] on a store that fails. *)
Example add_drop_offline_sample :
  let w := boot Sample.offline Sample.noon "zzzz" in
  (add Sample.bookmark w).1 = inl "store offline"
  ∧ model (add Sample.bookmark w).2 = new_Model
  ∧ (drop "k" w).1 = inl "store offline"
  ∧ model (drop "k" w).2 = new_Model.
Proof. by vm_compute. Qed.

(** ** The theorems at concrete inputs *)

Lemma src2state_formats_top_level_title_witness :
  reachable (Sample.world "") ∧
  item (src2state (Sample.record "k" Sample.folder))
  = DeletedFolder "Saved 2020-09-13T12:26:40.000Z" [Sample.bookmark].
Proof.
  assert (reachable (Sample.world "")) as Hw.
  { exists ∅, Sample.noon, "", []. reflexivity. }
  split; [exact Hw|].
  destruct (src2state_formats_top_level_title (Sample.world "")
              (Sample.record "k" Sample.folder) Hw) as (_ & _ & Hfolder & _).
  exact (Hfolder _ _ eq_refl).
Defined.

Lemma entries_keys_eq_cache_keys_witness :
  ∃ w, run (Sample.world "") Sample.session = Some w ∧
       list_to_set (entries_keys (model w))
       =@{gset string} dom (_entry_cache (model w)).
Proof.
  eexists. split; [reflexivity|].
  apply entries_keys_eq_cache_keys.
  exists ∅, Sample.noon, "", Sample.session. reflexivity.
Defined.

Lemma onSet_cached_frame_witness :
  reachable Sample.hydrated ∧
  entries (model Sample.updated) = entries (model Sample.hydrated) ∧
  heap (model Sample.updated) !! 0%nat
  = Some {| key := "k"; deleted_at := Some Sample.noon;
            item := Sample.bookmark |}.
Proof.
  assert (reachable Sample.hydrated) as Hw.
  { exists ∅, Sample.noon, "", [ListYield (Sample.record "k" Sample.folder)].
    reflexivity. }
  assert (_entry_cache (model Sample.hydrated)
            !! entry_key (Sample.record "k" Sample.bookmark) = Some 0%nat) as Hc.
  { vm_compute. reflexivity. }
  destruct (onSet_cached_frame Sample.hydrated
              (Sample.record "k" Sample.bookmark) 0%nat Sample.updated
              Hw Hc eq_refl)
    as (d & Hd & _ & _ & Hheap & _ & _ & Hentries & _).
  split; [exact Hw|]. split; [exact Hentries|].
  rewrite Hheap. vm_compute in Hd. injection Hd as <-.
  vm_compute. reflexivity.
Defined.

Lemma onDelete_absent_noop_witness :
  onDelete ["other"] (hydrate_record new_Model (Sample.record "k" Sample.folder))
  = hydrate_record new_Model (Sample.record "k" Sample.folder).
Proof.
  apply onDelete_absent_noop. constructor; [split|constructor].
  - vm_compute. reflexivity.
  - apply (bool_decide_unpack _). vm_compute. exact I.
Defined.


(** C6: the key of a later [add] call should be greater than the key of an
    earlier one (the source asks for keys such that items deleted more
    recently have greater keys).  The code at two [add] calls, one after the
    other, in the same millisecond: the random suffix of the first is [zzzz],
    that of the second is [aaaa], and the later key is the smaller one. *)
Lemma add_same_millisecond_later_key_smaller :
  ∃ r1 w1 r2 w2,
    add Sample.bookmark (Sample.world "zzzzaaaa") = (inr r1, w1) ∧
    add Sample.bookmark w1 = (inr r2, w2) ∧
    clock w1 = clock (Sample.world "zzzzaaaa") ∧
    entry_key r1 = "2020-09-13T12:26:40.000Z-zzzz" ∧
    entry_key r2 = "2020-09-13T12:26:40.000Z-aaaa" ∧
    String.compare (entry_key r2) (entry_key r1) = Lt ∧
    String.ltb (entry_key r1) (entry_key r2) = false.
Proof.
  eexists _, _, _, _. split; [vm_compute; reflexivity|].
  split; [vm_compute; reflexivity|]. by vm_compute.
Qed.

Lemma add_keys_ordered_by_clock_witness :
  String.compare "2020-09-13T12:26:40.000Z-zzzz"
                 "2020-09-13T12:26:40.001Z-aaaa" = Lt.
Proof.
  edestruct (add_keys_ordered_by_clock
               (Sample.world "zzzz")
               (boot (∅ : gmap string SourceValue) (Sample.noon + 1) "aaaa")
               Sample.bookmark Sample.folder)
    as (Hlt & _).
  - unfold four_digit_year. vm_compute. split; discriminate.
  - unfold four_digit_year. vm_compute. split; discriminate.
  - vm_compute. discriminate.
  - vm_compute. reflexivity.
  - vm_compute. reflexivity.
  - apply Hlt. vm_compute. reflexivity.
Defined.

(** * Further properties of the handlers *)

(** ** Delete notifications *)

Lemma entries_view_onDelete m (keys : list string) :
  entries_view (onDelete keys m) = filter (λ d, key d ∉ keys) (entries_view m).
Proof.
  unfold entries_view, deref, onDelete. simpl.
  induction (entries m) as [|c l IH]; [done|].
  rewrite filter_cons. destruct (heap m !! c) as [d|] eqn:Hd.
  - case_decide as Hs;
      rewrite (survives_true _ _ _ _ Hd), elem_of_list_to_set in Hs;
      simpl; rewrite Hd.
    + rewrite filter_cons_True by done. f_equal. apply IH.
    + rewrite filter_cons_False by done. apply IH.
  - rewrite decide_True by (unfold survives; by rewrite Hd).
    simpl. rewrite Hd. apply IH.
Qed.

Lemma survives_union h (s1 s2 : gset string) c :
  survives h (s1 ∪ s2) c = true ↔
  survives h s2 c = true ∧ survives h s1 c = true.
Proof.
  unfold survives. destruct (h !! c) as [d|]; [|done].
  rewrite !bool_decide_eq_true, not_elem_of_union. tauto.
Qed.

(** X11: after a "delete" notification none of its keys is cached or is the
    key of an entry, and every other key is cached as before, with the same
    object. *)
Theorem onDelete_removes_keys m (keys : list string) (k : string) :
  (k ∈ keys →
   _entry_cache (onDelete keys m) !! k = None ∧
   cached (onDelete keys m) k = None ∧
   k ∉ entries_keys (onDelete keys m)) ∧
  (k ∉ keys →
   _entry_cache (onDelete keys m) !! k = _entry_cache m !! k ∧
   cached (onDelete keys m) k = cached m k ∧
   (k ∈ entries_keys (onDelete keys m) ↔ k ∈ entries_keys m)).
Proof.
  assert (_entry_cache (onDelete keys m) !! k
          = if decide (k ∈ keys) then None else _entry_cache m !! k) as Hc
    by apply lookup_foldl_delete.
  assert (k ∈ entries_keys (onDelete keys m)
          ↔ (k ∉ keys) ∧ (k ∈ entries_keys m)) as Hk.
  { unfold entries_keys. rewrite entries_view_onDelete, !list_elem_of_fmap.
    split.
    - intros (d & -> & [Hd Hin]%list_elem_of_filter). eauto.
    - intros [Hn (d & -> & Hin)]. exists d. split; [done|].
      by apply list_elem_of_filter. }
  split; intros Hin.
  - rewrite decide_True in Hc by done. unfold cached. rewrite Hc.
    split_and!; [done..|]. rewrite Hk. tauto.
  - rewrite decide_False in Hc by done. unfold cached. rewrite Hc.
    split_and!; [done..|]. rewrite Hk. tauto.
Qed.

(** X12: a "delete" notification for two batches in a row does what one
    notification for both batches does. *)
Theorem onDelete_app m (keys1 keys2 : list string) :
  onDelete keys2 (onDelete keys1 m) = onDelete (keys1 ++ keys2) m.
Proof.
  unfold onDelete. simpl. f_equal.
  - rewrite list_filter_filter. apply list_filter_iff. intros c.
    rewrite list_to_set_app_L. symmetry. apply survives_union.
  - by rewrite foldl_app.
Qed.

Lemma onDelete_ext m (keys keys' : list string) :
  (∀ k, k ∈ keys ↔ k ∈ keys') → onDelete keys m = onDelete keys' m.
Proof.
  intros Heq.
  assert (list_to_set keys =@{gset string} list_to_set keys') as Hset.
  { apply set_eq. intros k. by rewrite !elem_of_list_to_set. }
  unfold onDelete. rewrite Hset. f_equal.
  apply map_eq. intros k. rewrite !lookup_foldl_delete.
  apply decide_ext, Heq.
Qed.

(** X13: a "delete" notification depends on the set of its keys only: the
    order of the keys and their repetition make no difference. *)
Theorem onDelete_same_keys m (keys keys' : list string) :
  list_to_set keys =@{gset string} list_to_set keys' →
  onDelete keys m = onDelete keys' m.
Proof.
  intros Hset. apply onDelete_ext. intros k.
  by rewrite <-!(elem_of_list_to_set (C := gset string)), Hset.
Qed.

(** X14: the same "delete" notification a second time changes nothing. *)
Theorem onDelete_idempotent m (keys : list string) :
  onDelete keys (onDelete keys m) = onDelete keys m.
Proof.
  unfold onDelete. simpl. f_equal.
  - by apply list_filter_filter_l.
  - apply map_eq. intros k. rewrite !lookup_foldl_delete. by case_decide.
Qed.

Section invariants.

Context {S R : Type} `{!KeyValueStore S} `{!Platform R}.

Implicit Types (w : World S R) (m : Model) (r : Entry) (evs : list Event).

(** A property of the new model that the four handlers keep, on consistent
    models, holds in every reachable world. *)
Lemma reachable_model_ind (P : Model → Prop) :
  P new_Model →
  (∀ m r, consistent m → P m → P (hydrate_record m r)) →
  (∀ m r, consistent m → P m → P (onSet_record m r)) →
  (∀ m keys, consistent m → P m → P (onDelete keys m)) →
  (∀ m, consistent m → P m → P (hydrate_done m)) →
  ∀ w, reachable w → P (model w).
Proof.
  intros Hnew Hhyd Hset Hdel Hdone w (st & t & g & evs & Hrun).
  assert (∀ records m, consistent m → P m → P (onSet records m)) as Hbatch.
  { unfold onSet. induction records as [|r records IH]; intros m Hm HP; [done|].
    simpl. apply IH; [by apply consistent_onSet_record|by apply Hset]. }
  assert (∀ evs w0 w1, run w0 evs = Some w1 →
            consistent (model w0) → P (model w0) → P (model w1)) as Hruns.
  { clear evs Hrun. induction evs as [|ev evs IH]; intros w0 w1; simpl.
    { by intros [= <-]. }
    destruct (step w0 ev) as [w0'|] eqn:Hstep; [|done].
    intros Hrun Hm HP. apply (IH w0' w1 Hrun).
    - by eapply step_consistent.
    - apply step_inv in Hstep.
      destruct ev; destruct_and?;
        repeat match goal with H : model w0' = _ |- _ => rewrite H end; auto. }
  apply (Hruns evs _ _ Hrun); [apply consistent_new|done].
Qed.

Lemma consistent_lt m c :
  consistent m → c ∈ entries m → (c < length (heap m))%nat.
Proof.
  intros [_ Hec] Hc. destruct (Hec c Hc) as (d & Hd & _).
  by eapply lookup_lt_Some.
Qed.

Lemma NoDup_entries_hydrate_record m r :
  consistent m → NoDup (entries m) → NoDup (entries (hydrate_record m r)).
Proof.
  intros Hm Hnd. simpl. apply NoDup_app. split_and!; [done| |apply NoDup_singleton].
  intros c Hc ->%list_elem_of_singleton.
  pose proof (consistent_lt m _ Hm Hc). lia.
Qed.

(** X1: in every reachable world the cache and the entries hold the same
    objects: a cached reference is an element of the entries and its object
    has the key it is cached under; a reference in the entries is allocated
    and the key of its object is cached. *)
Theorem cache_refers_to_entries w :
  reachable w →
  (∀ k c, _entry_cache (model w) !! k = Some c →
     c ∈ entries (model w) ∧
     ∃ d, heap (model w) !! c = Some d ∧ key d = k ∧
          cached (model w) k = Some d) ∧
  (∀ c, c ∈ entries (model w) →
     ∃ d, heap (model w) !! c = Some d ∧
          is_Some (_entry_cache (model w) !! key d)).
Proof.
  intros [Hce Hec]%reachable_consistent. split; [|done].
  intros k c Hc. destruct (Hce k c Hc) as [Hin (d & Hd & Hk)].
  split; [done|]. exists d. split_and!; [done..|].
  unfold cached, deref. by rewrite Hc.
Qed.

(** X2: in every reachable world no object is listed twice: the references
    in the entries are pairwise distinct (two of them may still have objects
    with the same key). *)
Theorem entries_refs_distinct w :
  reachable w → NoDup (entries (model w)).
Proof.
  apply (reachable_model_ind (λ m, NoDup (entries m))).
  - apply NoDup_nil_2.
  - apply NoDup_entries_hydrate_record.
  - intros m r Hm Hnd.
    destruct (_entry_cache m !! entry_key r) as [c|] eqn:Hc.
    + by rewrite (onSet_record_cached _ _ _ Hc).
    + rewrite (onSet_record_fresh _ _ Hc).
      by apply NoDup_entries_hydrate_record.
  - intros m keys _ Hnd. by apply NoDup_filter.
  - done.
Qed.

Lemma keep_key_refl (h : list Deletion) c d :
  h !! c = Some d → ∃ d', h !! c = Some d' ∧ key d' = key d.
Proof. eauto. Qed.

Lemma keep_key_onSet_record m r c d :
  heap m !! c = Some d →
  ∃ d', heap (onSet_record m r) !! c = Some d' ∧ key d' = key d.
Proof.
  intros Hd. destruct (_entry_cache m !! entry_key r) as [c0|] eqn:Hc.
  - rewrite (onSet_record_cached _ _ _ Hc). simpl.
    destruct (decide (c0 = c)) as [->|Hne].
    + exists (overwrite (entry_value r) d).
      by rewrite list_lookup_alter_eq, Hd.
    + exists d. by rewrite list_lookup_alter_ne.
  - rewrite (onSet_record_fresh _ _ Hc). exists d.
    split; [|done]. by apply lookup_app_l_Some.
Qed.

Lemma keep_key_onSet records m c d :
  heap m !! c = Some d →
  ∃ d', heap (onSet records m) !! c = Some d' ∧ key d' = key d.
Proof.
  unfold onSet. revert m d. induction records as [|r records IH]; intros m d Hd.
  { eauto. }
  simpl. destruct (keep_key_onSet_record m r c d Hd) as (d1 & Hd1 & Hk1).
  destruct (IH _ _ Hd1) as (d2 & Hd2 & Hk2). exists d2. split; [done|congruence].
Qed.

(** X3: an object never goes away and never changes its key: whatever
    happens after it was allocated, its reference leads to an object with the
    key it was filed under. *)
Theorem objects_keep_their_key w evs w' c d :
  run w evs = Some w' →
  heap (model w) !! c = Some d →
  ∃ d', heap (model w') !! c = Some d' ∧ key d' = key d.
Proof.
  revert w d. induction evs as [|ev evs IH]; intros w d; simpl.
  { intros [= <-]. eauto. }
  destruct (step w ev) as [w1|] eqn:Hstep; [|done].
  intros Hrun Hd.
  assert (∃ d1, heap (model w1) !! c = Some d1 ∧ key d1 = key d)
    as (d1 & Hd1 & Hk1).
  { apply step_inv in Hstep.
    destruct ev; destruct_and?;
      repeat match goal with H : model w1 = _ |- _ => rewrite H end;
      eauto using keep_key_onSet.
    exists d. split; [|done]. by apply lookup_app_l_Some. }
  destruct (IH _ _ Hrun Hd1) as (d2 & Hd2 & Hk2).
  exists d2. split; [done|congruence].
Qed.

Lemma cached_hydrate_record_other m r k :
  consistent m → k ≠ entry_key r →
  cached (hydrate_record m r) k = cached m k.
Proof.
  intros [Hce _] Hne. unfold cached, deref. simpl.
  rewrite lookup_insert_ne by done.
  destruct (_entry_cache m !! k) as [c|] eqn:Hc; [|done]. simpl.
  destruct (Hce k c Hc) as [_ (d & Hd & _)].
  by rewrite (lookup_app_l_Some _ _ _ _ Hd).
Qed.

Lemma cached_onSet_record_other m r k :
  consistent m → k ≠ entry_key r →
  cached (onSet_record m r) k = cached m k.
Proof.
  intros Hm Hne. destruct (_entry_cache m !! entry_key r) as [c0|] eqn:Hc0.
  - rewrite (onSet_record_cached _ _ _ Hc0). unfold cached, deref. simpl.
    destruct (_entry_cache m !! k) as [c|] eqn:Hc; [|done]. simpl.
    apply list_lookup_alter_ne. intros ->.
    destruct Hm as [Hce _].
    destruct (Hce _ _ Hc0) as [_ (d0 & Hd0 & Hk0)].
    destruct (Hce _ _ Hc) as [_ (d & Hd & Hk)]. congruence.
  - rewrite (onSet_record_fresh _ _ Hc0).
    by apply cached_hydrate_record_other.
Qed.

Lemma cached_onSet_other records m k :
  consistent m → k ∉ entry_key <$> records →
  cached (onSet records m) k = cached m k ∧
  _entry_cache (onSet records m) !! k = _entry_cache m !! k.
Proof.
  unfold onSet. revert m.
  induction records as [|r records IH]; intros m Hm Hk; [done|].
  rewrite fmap_cons, not_elem_of_cons in Hk. destruct Hk as [Hne Hk].
  simpl. destruct (IH (onSet_record m r)) as [-> ->];
    [by apply consistent_onSet_record|done|].
  split; [by apply cached_onSet_record_other|].
  unfold onSet_record. case_match; [done|]. simpl.
  by rewrite lookup_insert_ne.
Qed.

(** X4: a "set" notification leaves the [Deletion] cached under a key that
    is not in the batch as it is. *)
Theorem onSet_other_keys_untouched w records k w' :
  reachable w →
  k ∉ entry_key <$> records →
  step w (NotifySet records) = Some w' →
  cached (model w') k = cached (model w) k ∧
  _entry_cache (model w') !! k = _entry_cache (model w) !! k.
Proof.
  intros Hm%reachable_consistent Hk [_ ->]%step_inv.
  by apply cached_onSet_other.
Qed.

Lemma overwrite_idemp (v : SourceValue) (d : Deletion) :
  overwrite v (overwrite v d) = overwrite v d.
Proof. done. Qed.

(** X5: once a key is cached, a "set" notification for it is idempotent: the
    same record a second time leaves the model as the first left it.  For a
    key that is not cached this holds when the item is stored as it is (a
    bookmark, or a folder whose title the formatter does not change). *)
Theorem onSet_repeated m r :
  is_Some (_entry_cache m !! entry_key r)
  ∨ item (src2state r) = sv_item (entry_value r) →
  onSet [r] (onSet [r] m) = onSet [r] m.
Proof.
  rewrite !onSet_singleton.
  destruct (_entry_cache m !! entry_key r) as [c|] eqn:Hc.
  - intros _. rewrite (onSet_record_cached _ _ _ Hc).
    rewrite (onSet_record_cached _ _ c) by done. simpl. f_equal.
    rewrite list_alter_alter_eq. by apply list_alter_ext.
  - intros [[? [=]]|Hitem]. rewrite (onSet_record_fresh _ _ Hc).
    rewrite (onSet_record_cached _ _ (length (heap m)))
      by apply lookup_insert_eq.
    simpl. f_equal.
    rewrite alter_app_r_alt, Nat.sub_diag by done.
    simpl. do 2 f_equal. unfold overwrite. by rewrite <-Hitem.
Qed.

Lemma entries_keys_hydrate_record m r :
  consistent m →
  entries_keys (hydrate_record m r) = entries_keys m ++ [entry_key r].
Proof.
  intros Hm. unfold entries_keys.
  by rewrite entries_view_hydrate_record, fmap_snoc.
Qed.

Lemma entries_keys_cached m k :
  consistent m → k ∈ entries_keys m → is_Some (_entry_cache m !! k).
Proof.
  intros Hm Hk. apply elem_of_dom. rewrite <-(consistent_keys m Hm).
  by apply elem_of_list_to_set.
Qed.

(** The keys of the entries after an assignment to one object. *)
Lemma entries_keys_alter m (f : Deletion → Deletion) c :
  (∀ d, key (f d) = key d) →
  entries_keys {| ready := ready m; entries := entries m;
                  _entry_cache := _entry_cache m;
                  heap := alter f c (heap m) |}
  = entries_keys m.
Proof.
  intros Hf. unfold entries_keys, entries_view, deref. simpl.
  induction (entries m) as [|c' l IH]; [done|]. simpl.
  rewrite list_lookup_alter. case_decide as Hc.
  - subst c'. destruct (heap m !! c) as [d|]; simpl; [|exact IH].
    rewrite Hf. f_equal. exact IH.
  - destruct (heap m !! c') as [d|]; simpl; [|exact IH]. f_equal. exact IH.
Qed.

Lemma NoDup_keys_onSet_record m r :
  consistent m → NoDup (entries_keys m) →
  NoDup (entries_keys (onSet_record m r)).
Proof.
  intros Hm Hnd. destruct (_entry_cache m !! entry_key r) as [c|] eqn:Hc.
  - rewrite (onSet_record_cached _ _ _ Hc). by rewrite entries_keys_alter.
  - rewrite (onSet_record_fresh _ _ Hc), entries_keys_hydrate_record by done.
    apply NoDup_app. split_and!; [done| |apply NoDup_singleton].
    intros k Hk ->%list_elem_of_singleton.
    destruct (entries_keys_cached m _ Hm Hk) as [c Hc']. congruence.
Qed.

Lemma NoDup_keys_onSet records m :
  consistent m → NoDup (entries_keys m) →
  NoDup (entries_keys (onSet records m)).
Proof.
  unfold onSet. revert m. induction records as [|r records IH]; intros m Hm Hnd.
  - done.
  - simpl. apply IH; [by apply consistent_onSet_record|].
    by apply NoDup_keys_onSet_record.
Qed.

Lemma NoDup_keys_onDelete keys m :
  NoDup (entries_keys m) → NoDup (entries_keys (onDelete keys m)).
Proof.
  unfold entries_keys. rewrite entries_view_onDelete. intros Hnd.
  eapply sublist_NoDup; [exact Hnd|]. apply fmap_sublist, sublist_filter.
Qed.

(** X8: the notifications and the API never bring a second entry for a key:
    from a reachable world in which no two entries have the same key, every
    event leads to such a world again, except that the hydration loop may
    append a record whose key is cached already. *)
Theorem notifications_keep_keys_distinct w ev w' :
  reachable w →
  NoDup (entries_keys (model w)) →
  step w ev = Some w' →
  (∀ r, ev = ListYield r → _entry_cache (model w) !! entry_key r = None) →
  NoDup (entries_keys (model w')).
Proof.
  intros Hm%reachable_consistent Hnd Hstep%step_inv Hfresh.
  destruct ev; destruct_and?;
    repeat match goal with H : model w' = _ |- _ => rewrite H end;
    auto using NoDup_keys_onSet, NoDup_keys_onDelete.
  rewrite <-(onSet_record_fresh (model w) record) by auto.
  by apply NoDup_keys_onSet_record.
Qed.

Lemma onSet_fresh_batch records m :
  consistent m →
  NoDup (entry_key <$> records) →
  (∀ r, r ∈ records → _entry_cache m !! entry_key r = None) →
  entries_view (onSet records m) = entries_view m ++ (src2state <$> records) ∧
  (∀ r, r ∈ records →
     cached (onSet records m) (entry_key r) = Some (src2state r)).
Proof.
  revert m. induction records as [|r records IH]; intros m Hm Hnd Hfresh.
  { split; [by rewrite app_nil_r|]. by intros r ?%elem_of_nil. }
  rewrite fmap_cons, NoDup_cons in Hnd. destruct Hnd as [Hr Hnd].
  assert (_entry_cache m !! entry_key r = None) as Hc
    by apply Hfresh, list_elem_of_here.
  change (onSet (r :: records) m) with (onSet records (onSet_record m r)).
  rewrite (onSet_record_fresh _ _ Hc).
  destruct (IH (hydrate_record m r)) as [Hview Hcached].
  - by apply consistent_hydrate_record.
  - done.
  - intros r' Hr'. simpl. rewrite lookup_insert_ne.
    + by apply Hfresh, list_elem_of_further.
    + intros Heq. apply Hr. rewrite Heq. by apply list_elem_of_fmap_2.
  - split.
    + rewrite Hview, entries_view_hydrate_record by done.
      by rewrite <-app_assoc.
    + intros r' [->|Hr']%elem_of_cons; [|by apply Hcached].
      destruct (cached_onSet_other records (hydrate_record m r) (entry_key r))
        as [-> _]; [by apply consistent_hydrate_record|done|].
      apply cached_hydrate_record.
Qed.

(** X6: a "set" notification with records under distinct keys, none of them
    cached, appends their [Deletion]s to the entries in the order of the
    batch, and each is then cached under its key. *)
Theorem onSet_appends_in_batch_order w records w' :
  reachable w →
  NoDup (entry_key <$> records) →
  Forall (λ r, _entry_cache (model w) !! entry_key r = None) records →
  step w (NotifySet records) = Some w' →
  entries_view (model w') = entries_view (model w) ++ (src2state <$> records) ∧
  (∀ r, r ∈ records →
     cached (model w') (entry_key r) = Some (src2state r)).
Proof.
  intros Hm%reachable_consistent Hnd Hfresh [_ ->]%step_inv.
  apply onSet_fresh_batch; [done..|]. by apply Forall_forall.
Qed.

(** The listing alone: the model after the loop took the records [rs]. *)
Lemma run_listing_model st t g (rs : list Entry) :
  run (boot st t g) (ListYield <$> rs)
  = Some (with_model (foldl hydrate_record new_Model rs) (boot st t g)).
Proof.
  induction rs as [|r rs IH] using rev_ind; [done|].
  by rewrite fmap_snoc, run_snoc, IH, foldl_snoc.
Qed.

Lemma consistent_listing (rs : list Entry) m :
  consistent m → consistent (foldl hydrate_record m rs).
Proof.
  revert m. induction rs as [|r rs IH]; intros m Hm; [done|].
  simpl. by apply IH, consistent_hydrate_record.
Qed.

Lemma listing_view (rs : list Entry) m :
  consistent m →
  entries_view (foldl hydrate_record m rs)
  = entries_view m ++ (src2state <$> rs).
Proof.
  revert m. induction rs as [|r rs IH]; intros m Hm.
  { by rewrite app_nil_r. }
  simpl. rewrite IH, entries_view_hydrate_record, <-app_assoc; [done..|].
  by apply consistent_hydrate_record.
Qed.

Lemma listing_cached_other (rs : list Entry) m k :
  consistent m → k ∉ entry_key <$> rs →
  cached (foldl hydrate_record m rs) k = cached m k.
Proof.
  revert m. induction rs as [|r rs IH]; intros m Hm Hk; [done|].
  rewrite fmap_cons, not_elem_of_cons in Hk. destruct Hk as [Hne Hk].
  simpl. rewrite IH; [|by apply consistent_hydrate_record|done].
  by apply cached_hydrate_record_other.
Qed.

Lemma listing_cached (rs : list Entry) m r :
  consistent m → NoDup (entry_key <$> rs) → r ∈ rs →
  cached (foldl hydrate_record m rs) (entry_key r) = Some (src2state r).
Proof.
  revert m. induction rs as [|r0 rs IH]; intros m Hm Hnd Hr.
  { by apply elem_of_nil in Hr. }
  rewrite fmap_cons, NoDup_cons in Hnd. destruct Hnd as [Hr0 Hnd].
  apply elem_of_cons in Hr as [->|Hr]; simpl.
  - rewrite listing_cached_other; [|by apply consistent_hydrate_record|done].
    apply cached_hydrate_record.
  - apply IH; [by apply consistent_hydrate_record|done..].
Qed.

(** X10: when the listing yields the records [rs] and ends, and nothing else
    happens in between, the model is ready and the entries are the
    [Deletion]s of [rs], in the order of the listing; when the keys of [rs]
    are distinct, each [Deletion] is cached under its key and no key has two
    entries. *)
Theorem hydration_undisturbed st t g (rs : list Entry) :
  ∃ w, run (boot st t g) ((ListYield <$> rs) ++ [ListDone]) = Some w ∧
       hydration w = Completed ∧
       ready (model w) = true ∧
       entries_view (model w) = src2state <$> rs ∧
       entries_keys (model w) = entry_key <$> rs ∧
       (NoDup (entry_key <$> rs) →
        ∀ r, r ∈ rs →
          cached (model w) (entry_key r) = Some (src2state r)).
Proof.
  exists {| model := hydrate_done (foldl hydrate_record new_Model rs);
            hydration := Completed; kvs := st; clock := t; random := g |}.
  split; [by rewrite run_snoc, run_listing_model|].
  assert (entries_view (hydrate_done (foldl hydrate_record new_Model rs))
          = src2state <$> rs) as Hview
    by apply (listing_view rs new_Model consistent_new).
  split_and!; [done..| |].
  - unfold entries_keys. simpl in *. rewrite Hview, <-list_fmap_compose.
    by apply list_fmap_ext.
  - intros Hnd r Hr. by apply (listing_cached rs new_Model r consistent_new).
Qed.

(** X16: [add], then the "set" notification for the record it returned, for
    a key that is not cached: the entries gain one [Deletion], at the end,
    under the key [add] made; its timestamp is the parsed ISO string of the
    clock, and its item is the item given to [add] when that is a bookmark,
    and the folder under its friendly title when it is a folder. *)
Theorem add_then_notify w (i : DeletedItem) r w1 w2 :
  reachable w →
  _entry_cache (model w) !! add_key w = None →
  add i w = (inr r, w1) →
  step w1 (NotifySet [r]) = Some w2 →
  ∃ d, entries_view (model w2) = entries_view (model w) ++ [d] ∧
       cached (model w2) (add_key w) = Some d ∧
       key d = add_key w ∧
       deleted_at d = newDate (toISOString (clock w)) ∧
       item d = match i with
                | DeletedFolder title children =>
                    DeletedFolder (friendlyFolderName title) children
                | DeletedBookmark _ _ _ => i
                end.
Proof.
  intros Hm%reachable_consistent Hc Hadd [_ Hstep]%step_inv.
  rewrite add_unfold in Hadd.
  assert (r = add_entry i w ∧ model w1 = model w) as [-> Hm1]
    by (split; repeat case_match; by simplify_eq).
  rewrite Hstep, Hm1, onSet_singleton.
  rewrite (onSet_record_fresh (model w) (add_entry i w)) by done.
  exists (src2state (add_entry i w)).
  rewrite entries_view_hydrate_record by done.
  split_and!; try done.
  - apply (cached_hydrate_record (model w) (add_entry i w)).
  - unfold src2state. simpl. by destruct i.
Qed.

(** X15: a "delete" notification for a key followed by a "set" notification
    for the same key drops the entries under the key and appends the new
    [Deletion] at the end: the record does not get its old place back. *)
Theorem set_after_delete_appends w r w1 w2 :
  reachable w →
  step w (NotifyDelete [entry_key r]) = Some w1 →
  step w1 (NotifySet [r]) = Some w2 →
  entries_view (model w2)
  = filter (λ d, key d ≠ entry_key r) (entries_view (model w))
    ++ [src2state r] ∧
  cached (model w2) (entry_key r) = Some (src2state r).
Proof.
  intros Hm%reachable_consistent [_ Hdel]%step_inv [_ Hset]%step_inv.
  assert (_entry_cache (model w1) !! entry_key r = None) as Hc.
  { rewrite Hdel. simpl. apply lookup_delete_eq. }
  rewrite Hset, onSet_singleton, (onSet_record_fresh _ _ Hc).
  rewrite entries_view_hydrate_record, cached_hydrate_record
    by (rewrite Hdel; by apply consistent_onDelete).
  split; [|done]. rewrite Hdel, entries_view_onDelete. f_equal.
  apply list_filter_iff. intros d. by rewrite list_elem_of_singleton.
Qed.

(** Among entries with distinct keys the key tells the object. *)
Lemma NoDup_keys_inj (h : list Deletion) (l : list ref) c1 c2 d1 d2 :
  NoDup (key <$> omap (λ c, h !! c) l) →
  c1 ∈ l → c2 ∈ l →
  h !! c1 = Some d1 → h !! c2 = Some d2 → key d1 = key d2 →
  c1 = c2.
Proof.
  intros Hnd Hc1 Hc2 Hd1 Hd2 Hk.
  assert (∀ c d (l' : list ref), c ∈ l' → h !! c = Some d →
            key d ∈ key <$> omap (λ c, h !! c) l') as Hin.
  { intros c d l' Hc Hd. apply list_elem_of_fmap. exists d. split; [done|].
    apply list_elem_of_omap. by exists c. }
  induction l as [|c l IH]; [by apply elem_of_nil in Hc1|].
  simpl in Hnd. destruct (h !! c) as [d|] eqn:Hd.
  - rewrite fmap_cons, NoDup_cons in Hnd. destruct Hnd as [Hnotin Hnd].
    apply elem_of_cons in Hc1 as [->|Hc1];
      apply elem_of_cons in Hc2 as [->|Hc2]; try done.
    + exfalso. apply Hnotin. simplify_eq. rewrite Hk. by eapply Hin.
    + exfalso. apply Hnotin. simplify_eq. rewrite <-Hk. by eapply Hin.
    + by apply IH.
  - apply elem_of_cons in Hc1 as [->|Hc1]; [congruence|].
    apply elem_of_cons in Hc2 as [->|Hc2]; [congruence|]. by apply IH.
Qed.

Lemma view_alter_fmap (h : list Deletion) (f : Deletion → Deletion)
    c (k : string) (l : list ref) :
  (∀ c' d', c' ∈ l → h !! c' = Some d' → c' = c ↔ key d' = k) →
  omap (λ c', alter f c h !! c') l
  = (λ d, if decide (key d = k) then f d else d) <$> omap (λ c', h !! c') l.
Proof.
  induction l as [|c' l IH]; intros Hl; [done|].
  assert (omap (λ c', alter f c h !! c') l
          = (λ d, if decide (key d = k) then f d else d)
              <$> omap (λ c', h !! c') l) as IH'.
  { apply IH. intros c0 d0 Hc0. apply Hl. by apply list_elem_of_further. }
  simpl. rewrite list_lookup_alter.
  destruct (h !! c') as [d'|] eqn:Hd'.
  - pose proof (Hl c' d' (list_elem_of_here _ _) Hd') as Hiff.
    rewrite fmap_cons. case_decide as Hc; simpl.
    + subst c'. rewrite Hd'. simpl.
      rewrite decide_True by by apply Hiff. f_equal. exact IH'.
    + rewrite decide_False by (intros Hk; apply Hc; symmetry; by apply Hiff).
      f_equal. exact IH'.
  - case_decide; simplify_eq; rewrite ?Hd'; simpl; exact IH'.
Qed.

(** X7: when no two entries have the same key, a "set" notification for a
    cached key shows in the entries as a change of that one element, in its
    place: it gets the timestamp and the item of the record, as persisted,
    and all other elements are as before. *)
Theorem onSet_cached_updates_in_place w r w' :
  reachable w →
  NoDup (entries_keys (model w)) →
  is_Some (_entry_cache (model w) !! entry_key r) →
  step w (NotifySet [r]) = Some w' →
  entries_view (model w')
  = (λ d, if decide (key d = entry_key r)
          then {| key := key d;
                  deleted_at := newDate (sv_deleted_at (entry_value r));
                  item := sv_item (entry_value r) |}
          else d) <$> entries_view (model w).
Proof.
  intros [Hce Hec]%reachable_consistent Hnd [c Hc] [_ ->]%step_inv.
  rewrite onSet_singleton, (onSet_record_cached _ _ _ Hc).
  unfold entries_view, deref. simpl.
  apply (view_alter_fmap _ (overwrite (entry_value r))).
  intros c' d' Hc' Hd'. destruct (Hce _ _ Hc) as [Hin (d & Hd & Hk)]. split.
  - intros ->. congruence.
  - intros Hk'. eapply NoDup_keys_inj; [exact Hnd|done..|congruence].
Qed.

(** X9: when no two entries have the same key, the entries and the cache
    have the same number of elements. *)
Theorem entries_length_cache_size w :
  reachable w →
  NoDup (entries_keys (model w)) →
  length (entries (model w)) = size (_entry_cache (model w)).
Proof.
  intros Hm%reachable_consistent Hnd.
  rewrite <-size_dom, <-(consistent_keys _ Hm), size_list_to_set by done.
  unfold entries_keys, entries_view. rewrite length_fmap.
  destruct Hm as [_ Hec]. clear Hnd.
  induction (entries (model w)) as [|c l IH]; [done|].
  destruct (Hec c) as (d & Hd & _); [apply list_elem_of_here|].
  simpl. unfold deref at 1. rewrite Hd. simpl. f_equal. apply IH.
  intros c' Hc'. apply Hec. by apply list_elem_of_further.
Qed.

Lemma string_compare_refl (s : string) : String.compare s s = Eq.
Proof. induction s as [|a s IH]; [done|]. simpl. by rewrite ascii_compare_refl. Qed.

(** X18: two keys made by [add] at clock readings within the years 0000 to
    9999 are equal only when both the millisecond and the random string are
    the same: keys of different milliseconds never collide. *)
Theorem add_key_collision (w1 w2 : World S R) :
  four_digit_year (clock w1) → four_digit_year (clock w2) →
  add_key w1 = add_key w2 ↔
  clock w1 = clock w2 ∧
  (makeRandomString 4 (random w1)).1 = (makeRandomString 4 (random w2)).1.
Proof.
  intros Hy1 Hy2. split.
  - intros Heq.
    assert (∀ wa wb : World S R,
              four_digit_year (clock wa) → four_digit_year (clock wb) →
              clock wa < clock wb → add_key wa ≠ add_key wb) as Hlt.
    { intros wa wb Hya Hyb Hab Heq'.
      assert (String.compare (add_key wa) (add_key wb) = Lt) as Hcmp.
      { unfold add_key. apply compare_append_lt.
        - by rewrite !toISOString_length.
        - by apply toISOString_lt. }
      by rewrite Heq', string_compare_refl in Hcmp. }
    destruct (Z.lt_trichotomy (clock w1) (clock w2)) as [Hlt'|[Heq'|Hgt]].
    + by destruct (Hlt w1 w2 Hy1 Hy2 Hlt').
    + split; [done|]. unfold add_key in Heq. rewrite Heq' in Heq.
      by do 2 apply String.app_inj in Heq.
    + by destruct (Hlt w2 w1 Hy2 Hy1 Hgt).
  - intros [Ht Hs]. unfold add_key. by rewrite Ht, Hs.
Qed.

(** X17: [drop], then the "delete" notification for its key: the entries
    under the key are gone, the other entries are as before, in their order,
    and the key is no longer cached. *)
Theorem drop_then_notify w (k : string) w1 w2 :
  reachable w →
  drop k w = (inr (), w1) →
  step w1 (NotifyDelete [k]) = Some w2 →
  entries_view (model w2)
  = filter (λ d, key d ≠ k) (entries_view (model w)) ∧
  _entry_cache (model w2) !! k = None ∧
  (∀ k', k' ≠ k → cached (model w2) k' = cached (model w) k').
Proof.
  intros _ Hdrop [_ ->]%step_inv. rewrite drop_unfold in Hdrop.
  assert (model w1 = model w) as -> by by simplify_eq.
  split_and!.
  - rewrite entries_view_onDelete. apply list_filter_iff. intros d.
    by rewrite list_elem_of_singleton.
  - simpl. apply lookup_delete_eq.
  - intros k' Hne. unfold cached. simpl. by rewrite lookup_delete_ne.
Qed.

End invariants.

(** ** The further properties at concrete inputs *)

Lemma reachable_hydrated : reachable Sample.hydrated.
Proof.
  exists ∅, Sample.noon, "", [ListYield (Sample.record "k" Sample.folder)].
  reflexivity.
Defined.

Lemma cache_refers_to_entries_witness :
  reachable Sample.hydrated ∧ 0%nat ∈ entries (model Sample.hydrated).
Proof.
  split; [exact reachable_hydrated|].
  destruct (cache_refers_to_entries Sample.hydrated reachable_hydrated)
    as [Hcache _].
  apply (Hcache "k" 0%nat). vm_compute. reflexivity.
Defined.

Lemma entries_refs_distinct_witness :
  ∃ w, run (Sample.world "") Sample.session = Some w ∧
       NoDup (entries (model w)).
Proof.
  eexists. split; [reflexivity|].
  apply entries_refs_distinct.
  exists ∅, Sample.noon, "", Sample.session. reflexivity.
Defined.

Lemma objects_keep_their_key_witness :
  ∃ d, heap (model Sample.updated) !! 0%nat = Some d ∧ key d = "k".
Proof.
  apply (objects_keep_their_key Sample.hydrated
           [NotifySet [Sample.record "k" Sample.bookmark]] Sample.updated
           0%nat (src2state (Sample.record "k" Sample.folder)));
    reflexivity.
Defined.

Lemma onSet_other_keys_untouched_witness :
  cached (onSet [Sample.record "other" Sample.bookmark]
            (model Sample.hydrated)) "k"
  = cached (model Sample.hydrated) "k".
Proof.
  apply (onSet_other_keys_untouched Sample.hydrated
           [Sample.record "other" Sample.bookmark] "k"
           (with_model (onSet [Sample.record "other" Sample.bookmark]
                          (model Sample.hydrated)) Sample.hydrated)).
  - exact reachable_hydrated.
  - apply (bool_decide_unpack _). vm_compute. exact I.
  - reflexivity.
Defined.

Lemma onSet_repeated_witness :
  onSet [Sample.record "k" Sample.folder]
    (onSet [Sample.record "k" Sample.folder] (model Sample.hydrated))
  = onSet [Sample.record "k" Sample.folder] (model Sample.hydrated).
Proof.
  apply onSet_repeated. left. exists 0%nat. vm_compute. reflexivity.
Defined.

Lemma onSet_appends_in_batch_order_witness :
  entries_view (onSet [Sample.record "a" Sample.bookmark;
                       Sample.record "b" Sample.folder]
                  (model Sample.hydrated))
  = entries_view (model Sample.hydrated)
    ++ [src2state (Sample.record "a" Sample.bookmark);
        src2state (Sample.record "b" Sample.folder)].
Proof.
  apply (onSet_appends_in_batch_order Sample.hydrated
           [Sample.record "a" Sample.bookmark; Sample.record "b" Sample.folder]
           (with_model (onSet [Sample.record "a" Sample.bookmark;
                               Sample.record "b" Sample.folder]
                          (model Sample.hydrated)) Sample.hydrated)).
  - exact reachable_hydrated.
  - apply (bool_decide_unpack _). vm_compute. exact I.
  - repeat constructor; vm_compute; reflexivity.
  - reflexivity.
Defined.

Lemma onSet_cached_updates_in_place_witness :
  entries_view (model Sample.updated)
  = [{| key := "k"; deleted_at := Some Sample.noon;
        item := Sample.bookmark |}].
Proof.
  rewrite (onSet_cached_updates_in_place Sample.hydrated
             (Sample.record "k" Sample.bookmark) Sample.updated).
  - vm_compute. reflexivity.
  - exact reachable_hydrated.
  - apply (bool_decide_unpack _). vm_compute. exact I.
  - exists 0%nat. vm_compute. reflexivity.
  - reflexivity.
Defined.

Lemma notifications_keep_keys_distinct_witness :
  NoDup (entries_keys (onSet [Sample.record "k" Sample.bookmark;
                              Sample.record "j" Sample.folder]
                         (model Sample.hydrated))).
Proof.
  apply (notifications_keep_keys_distinct Sample.hydrated
           (NotifySet [Sample.record "k" Sample.bookmark;
                       Sample.record "j" Sample.folder])
           (with_model (onSet [Sample.record "k" Sample.bookmark;
                               Sample.record "j" Sample.folder]
                          (model Sample.hydrated)) Sample.hydrated)).
  - exact reachable_hydrated.
  - apply (bool_decide_unpack _). vm_compute. exact I.
  - reflexivity.
  - intros r. discriminate.
Defined.

Lemma entries_length_cache_size_witness :
  length (entries (model Sample.hydrated))
  = size (_entry_cache (model Sample.hydrated)).
Proof.
  apply entries_length_cache_size; [exact reachable_hydrated|].
  apply (bool_decide_unpack _). vm_compute. exact I.
Defined.

Lemma onDelete_same_keys_witness :
  onDelete ["k"; "j"; "k"] (model Sample.hydrated)
  = onDelete ["j"; "k"] (model Sample.hydrated).
Proof.
  apply onDelete_same_keys. apply (bool_decide_unpack _). vm_compute. exact I.
Defined.

Lemma set_after_delete_appends_witness :
  entries_view (onSet [Sample.record "k" Sample.bookmark]
                  (onDelete ["k"] (model Sample.hydrated)))
  = [src2state (Sample.record "k" Sample.bookmark)].
Proof.
  edestruct (set_after_delete_appends Sample.hydrated
               (Sample.record "k" Sample.bookmark)) as [Hview _].
  - exact reachable_hydrated.
  - reflexivity.
  - reflexivity.
  - etrans; [exact Hview|]. vm_compute. reflexivity.
Defined.

Lemma add_then_notify_witness :
  ∃ d, key d = "2020-09-13T12:26:40.000Z-zzzz" ∧ item d = Sample.bookmark.
Proof.
  edestruct (add_then_notify (Sample.world "zzzz") Sample.bookmark)
    as (d & _ & _ & Hk & _ & Hi).
  - exists ∅, Sample.noon, "zzzz", []. reflexivity.
  - vm_compute. reflexivity.
  - vm_compute. reflexivity.
  - reflexivity.
  - exists d. split; [|exact Hi]. rewrite Hk. vm_compute. reflexivity.
Defined.

Lemma drop_then_notify_witness :
  entries_view (onDelete ["k"] (model Sample.hydrated)) = [].
Proof.
  edestruct (drop_then_notify Sample.hydrated "k") as [Hview _].
  - exact reachable_hydrated.
  - vm_compute. reflexivity.
  - reflexivity.
  - etrans; [exact Hview|]. vm_compute. reflexivity.
Defined.

Lemma add_key_collision_witness :
  add_key (Sample.world "zzzzaaaa") = add_key (Sample.world "zzzzbbbb").
Proof.
  apply add_key_collision.
  - unfold four_digit_year. vm_compute. split; discriminate.
  - unfold four_digit_year. vm_compute. split; discriminate.
  - split; vm_compute; reflexivity.
Defined.
